(** * The DQN training script of keras-gym (notebooks/atari/dqn.ipynb)

    The notebook holds one locally defined function, the exploration
    schedule [epsilon], and a training loop made of calls into gym and
    keras_gym.  The schedule is embedded twice: over IEEE binary64 numbers
    (Rocq's primitive floats), which is what the Python interpreter
    computes, and over exact rationals, the reading under which the
    schedule is a piecewise linear function.  The loop is embedded in a
    small monad that threads the state of the outside world, propagates
    Python exceptions and records every call into the libraries. *)

From Stdlib Require Import ZArith QArith Bool List String Ascii Lia.
From Stdlib Require Import Floats Uint63 DecimalString.
From Stdlib Require DecimalN DecimalPos DecimalFacts.
Import ListNotations.

(** A decimal literal such as [0.9] denotes the binary64 number nearest to
    it, in Rocq as in Python. *)
Set Warnings "-inexact-float".

Local Open Scope Z_scope.

(** ** Python numbers *)

(** The binary64 number nearest to an integer (ties to even): the
    conversion CPython applies to an [int] operand of a [float]
    operation. *)
Definition round_int (n : Z) : float :=
  SF2Prim (binary_normalize prec emax n 0 false).

(** [float(n)]: CPython raises OverflowError ("int too large to convert to
    float") when the rounded value is not finite; [None] stands for it. *)
Definition float_of_int (n : Z) : option float :=
  let f := round_int n in
  if is_infinity f then None else Some f.

Definition obind {A B : Type} (o : option A) (k : A -> option B) : option B :=
  match o with
  | Some a => k a
  | None => None
  end.

Declare Scope py_scope.
Delimit Scope py_scope with py.
Notation "x <- c ;; k" := (obind c (fun x => k))
  (at level 61, c at next level, right associativity) : py_scope.

(** ** The exploration schedule (lines 36-43) *)

Definition M : Z := 1000000.

(** [1 - 0.9 * T / M]: the product converts [T], the quotient converts [M],
    the difference converts [1]. *)
Definition segment1 (T : Z) : option float :=
  (t <- float_of_int T ;;
   m <- float_of_int M ;;
   one <- float_of_int 1 ;;
   Some (one - 0.9 * t / m)%float)%py.

(** [0.1 - 0.09 * (T - M) / M] *)
Definition segment2 (T : Z) : option float :=
  (t <- float_of_int (T - M) ;;
   m <- float_of_int M ;;
   Some (0.1 - 0.09 * t / m)%float)%py.

Definition epsilon (T : Z) : option float :=
  if T <? M then segment1 T
  else if T <? 2 * M then segment2 T
  else Some 0.01%float.

(** The same three expressions over exact rationals. *)
Definition segment1_exact (T : Z) : Q :=
  1 - (9 # 10) * inject_Z T / inject_Z M.

Definition segment2_exact (T : Z) : Q :=
  (1 # 10) - (9 # 100) * inject_Z (T - M) / inject_Z M.

Definition epsilon_exact (T : Z) : Q :=
  if T <? M then segment1_exact T
  else if T <? 2 * M then segment2_exact T
  else 1 # 100.

(** The value of the schedule where it does not raise. *)
Definition epsilon_value (T : Z) : float :=
  match epsilon T with
  | Some f => f
  | None => nan
  end.

(** *** The function as Python runs it

    The body of [epsilon] (lines 36-43) as a syntax tree, run by an
    interpreter of the statements and operators it is written in.  The
    interpreter threads the module's global namespace, which is the only
    state outside the call that the body could read or write: a name is
    local when it is a parameter or is assigned in the body, and is not
    declared [global]; any other name is looked up in, and a declared one
    is assigned in, the global namespace. *)
Inductive value : Type :=
| VInt (n : Z)
| VFloat (x : float)
| VBool (b : bool).

Inductive binop : Type := OpSub | OpMult | OpDiv | OpLt.

Inductive expr : Type :=
| IntConst (n : Z)
| FloatConst (x : float)
| Name (id : string)
| BinOp (left : expr) (op : binop) (right : expr).

Inductive stmt : Type :=
| Docstring (s : string)
| Global (id : string)
| Assign (id : string) (e : expr)
| IfReturn (test : expr) (e : expr)
| Return (e : expr).

Record funcdef : Type := {
  fd_params : list string;
  fd_body : list stmt
}.

Inductive exn : Type :=
| OverflowError
| ZeroDivisionError
| NameError (id : string)
| UnboundLocalError (id : string)
| TypeError
| Unmodelled.

Definition namespace : Type := list (string * value).

Fixpoint lookup (id : string) (ns : namespace) : option value :=
  match ns with
  | [] => None
  | (k, v) :: ns' => if String.eqb id k then Some v else lookup id ns'
  end.

Fixpoint string_in (id : string) (l : list string) : bool :=
  match l with
  | [] => false
  | k :: l' => String.eqb id k || string_in id l'
  end.

Fixpoint assigned_names (b : list stmt) : list string :=
  match b with
  | [] => []
  | Assign id _ :: b' => id :: assigned_names b'
  | _ :: b' => assigned_names b'
  end.

Fixpoint global_names (b : list stmt) : list string :=
  match b with
  | [] => []
  | Global id :: b' => id :: global_names b'
  | _ :: b' => global_names b'
  end.

Definition is_local (fd : funcdef) (id : string) : bool :=
  (string_in id (fd_params fd) || string_in id (assigned_names (fd_body fd)))
  && negb (string_in id (global_names (fd_body fd))).

Definition to_float (v : value) : exn + float :=
  match v with
  | VInt n =>
      match float_of_int n with
      | Some x => inr x
      | None => inl OverflowError
      end
  | VFloat x => inr x
  | VBool _ => inl Unmodelled
  end.

(** The operators on the operand types the body uses: integers with
    integers, and arithmetic in which one operand is a float and the other
    is converted to one.  What the body does not use (true division of two
    integers, comparison of an integer with a float, Boolean operands) is
    left [Unmodelled]. *)
Definition eval_binop (op : binop) (l r : value) : exn + value :=
  match l, r with
  | VInt a, VInt b =>
      match op with
      | OpSub => inr (VInt (a - b))
      | OpMult => inr (VInt (a * b))
      | OpLt => inr (VBool (a <? b))
      | OpDiv => inl Unmodelled
      end
  | _, _ =>
      match op with
      | OpLt =>
          match l, r with
          | VFloat a, VFloat b => inr (VBool (a <? b)%float)
          | _, _ => inl Unmodelled
          end
      | _ =>
          match to_float l with
          | inl e => inl e
          | inr a =>
              match to_float r with
              | inl e => inl e
              | inr b =>
                  match op with
                  | OpSub => inr (VFloat (a - b))
                  | OpMult => inr (VFloat (a * b))
                  | OpDiv =>
                      if (b =? 0)%float then inl ZeroDivisionError
                      else inr (VFloat (a / b))
                  | OpLt => inl Unmodelled
                  end
              end
          end
      end
  end.

Fixpoint eval_expr (fd : funcdef) (locals globals : namespace) (e : expr)
  : exn + value :=
  match e with
  | IntConst n => inr (VInt n)
  | FloatConst x => inr (VFloat x)
  | Name id =>
      if is_local fd id then
        match lookup id locals with
        | Some v => inr v
        | None => inl (UnboundLocalError id)
        end
      else
        match lookup id globals with
        | Some v => inr v
        | None => inl (NameError id)
        end
  | BinOp l op r =>
      match eval_expr fd locals globals l with
      | inl e => inl e
      | inr a =>
          match eval_expr fd locals globals r with
          | inl e => inl e
          | inr b => eval_binop op a b
          end
      end
  end.

Definition truthy (v : value) : bool :=
  match v with
  | VInt n => negb (n =? 0)
  | VFloat x => negb (x =? 0)%float
  | VBool b => b
  end.

(** How a call ends: with the returned value ([None] for Python's [None],
    when the body runs off its end) or with an exception. *)
Inductive ending : Type :=
| Returned (v : option value)
| Raised (e : exn).

(** Runs the statements; gives the ending and the global namespace the
    call leaves. *)
Fixpoint exec (fd : funcdef) (b : list stmt) (locals globals : namespace)
  : ending * namespace :=
  match b with
  | [] => (Returned None, globals)
  | Docstring _ :: b' => exec fd b' locals globals
  | Global _ :: b' => exec fd b' locals globals
  | Assign id e :: b' =>
      match eval_expr fd locals globals e with
      | inl x => (Raised x, globals)
      | inr v =>
          if is_local fd id then exec fd b' ((id, v) :: locals) globals
          else exec fd b' locals ((id, v) :: globals)
      end
  | IfReturn test e :: b' =>
      match eval_expr fd locals globals test with
      | inl x => (Raised x, globals)
      | inr t =>
          if truthy t then
            match eval_expr fd locals globals e with
            | inl x => (Raised x, globals)
            | inr v => (Returned (Some v), globals)
            end
          else exec fd b' locals globals
      end
  | Return e :: _ =>
      match eval_expr fd locals globals e with
      | inl x => (Raised x, globals)
      | inr v => (Returned (Some v), globals)
      end
  end.

Fixpoint bind_args (ps : list string) (args : list value)
  : option namespace :=
  match ps, args with
  | [], [] => Some []
  | p :: ps', a :: args' =>
      option_map (cons (p, a)) (bind_args ps' args')
  | _, _ => None
  end.

Definition call_function (fd : funcdef) (args : list value)
  (globals : namespace) : ending * namespace :=
  match bind_args (fd_params fd) args with
  | Some locals => exec fd (fd_body fd) locals globals
  | None => (Raised TypeError, globals)
  end.

(** Lines 36-43. *)
Definition epsilon_def : funcdef :=
  {| fd_params := ["T"%string];
     fd_body :=
       [ Docstring " stepwise linear annealing ";
         Assign "M" (IntConst 1000000);
         IfReturn (BinOp (Name "T") OpLt (Name "M"))
           (BinOp (IntConst 1) OpSub
              (BinOp (BinOp (FloatConst 0.9) OpMult (Name "T"))
                     OpDiv (Name "M")));
         IfReturn (BinOp (Name "T") OpLt
                     (BinOp (IntConst 2) OpMult (Name "M")))
           (BinOp (FloatConst 0.1) OpSub
              (BinOp (BinOp (FloatConst 0.09) OpMult
                        (BinOp (Name "T") OpSub (Name "M")))
                     OpDiv (Name "M")));
         Return (FloatConst 0.01) ] |}.

(** Two functions that are not pure, to compare with: the first segment
    without the assignment of [M], which reads [M] from the module, and a
    body that declares [M] global, which writes it there. *)
Definition epsilon_reading_global : funcdef :=
  {| fd_params := ["T"%string];
     fd_body :=
       [ IfReturn (BinOp (Name "T") OpLt (Name "M"))
           (BinOp (IntConst 1) OpSub
              (BinOp (BinOp (FloatConst 0.9) OpMult (Name "T"))
                     OpDiv (Name "M")));
         Return (FloatConst 0.01) ] |}.

Definition epsilon_writing_global : funcdef :=
  {| fd_params := ["T"%string];
     fd_body :=
       [ Global "M";
         Assign "M" (IntConst 1000000);
         Return (FloatConst 0.01) ] |}.

(** *** Exhaustive evaluation below [2 * M]

    Over the integers below 2^63 the conversion is the primitive
    [of_uint63], so the schedule can be run on every step count of its two
    sloped segments. *)
Definition float_of_small (n : Z) : option float :=
  let f := of_uint63 (Uint63.of_Z n) in
  if is_infinity f then None else Some f.

Definition epsilon_small (T : Z) : option float :=
  if T <? M then
    (t <- float_of_small T ;;
     m <- float_of_small M ;;
     one <- float_of_small 1 ;;
     Some (one - 0.9 * t / m)%float)%py
  else if T <? 2 * M then
    (t <- float_of_small (T - M) ;;
     m <- float_of_small M ;;
     Some (0.1 - 0.09 * t / m)%float)%py
  else Some 0.01%float.

(** What is checked at step count [i]: the value lies in the interval of
    its segment, and the next value is not larger. *)
Definition in_segment (i : Z) (f : float) : bool :=
  if i <? M then ((0.1 <? f) && (f <=? 1))%float
  else if i <? 2 * M then ((0.01 <? f) && (f <=? 0.1))%float
  else (f =? 0.01)%float.

Definition step_ok (i : Z) : bool :=
  match epsilon_small i, epsilon_small (i + 1) with
  | Some f, Some g => in_segment i f && (g <=? f)%float
  | _, _ => false
  end.

(** [check_block P d lo]: [P] holds on the [2 ^ d] integers from [lo]. *)
Fixpoint check_block (P : Z -> bool) (d : nat) (lo : Z) : bool :=
  match d with
  | O => P lo
  | S d' => check_block P d' lo && check_block P d' (lo + 2 ^ Z.of_nat d')
  end.

(** The schedule on primitive integers, for step counts below 2^63, and
    the check that one more step gives a strictly smaller value while the
    schedule anneals. *)
Definition epsilon_int (i : int) : float :=
  if (i <? 1000000)%uint63 then
    (1 - 0.9 * of_uint63 i / 1000000)%float
  else if (i <? 2000000)%uint63 then
    (0.1 - 0.09 * of_uint63 (i - 1000000)%uint63 / 1000000)%float
  else 0.01%float.

Definition strict_ok (i : int) : bool :=
  if (i <? 2000000)%uint63 then
    (epsilon_int (i + 1)%uint63 <? epsilon_int i)%float
  else true.

(** [check_ints P d lo]: [P] holds on the [2 ^ d] integers from [lo]. *)
Fixpoint check_ints (P : int -> bool) (d : nat) (lo : int) : bool :=
  match d with
  | O => P lo
  | S d' =>
      check_ints P d' lo &&
      check_ints P d' (lo + Uint63.of_Z (2 ^ Z.of_nat d'))%uint63
  end.

(** ** Python strings *)

(** The decimal digits of [|n|]. *)
Definition digits (n : Z) : string :=
  NilZero.string_of_uint (N.to_uint (Z.abs_N n)).

Fixpoint zeros (k : nat) : string :=
  match k with
  | O => EmptyString
  | S k' => String "0"%char (zeros k')
  end.

(** ['{:06d}'.format(n)]: sign-aware zero padding to six characters. *)
Definition format_06d (n : Z) : string :=
  if n <? 0 then
    ("-" ++ zeros (5 - String.length (digits n)) ++ digits n)%string
  else (zeros (6 - String.length (digits n)) ++ digits n)%string.

Definition gif_dir : string := "./data/dqn/gifs/"%string.

(** ['./data/dqn/gifs/ep{:06d}.gif'.format(ep)] *)
Definition gif_path (ep : Z) : string :=
  ("./data/dqn/gifs/ep" ++ format_06d ep ++ ".gif")%string.

(** Reading a [format_06d] field back: an optional sign, then decimal
    digits, leading zeros allowed. *)
Definition parse_digits (s : string) : option N :=
  option_map N.of_uint (NilEmpty.uint_of_string s).

Definition parse_int (s : string) : option Z :=
  match s with
  | EmptyString => None
  | String a s' =>
      if Ascii.eqb a "-" then
        option_map (fun m => - Z.of_N m) (parse_digits s')
      else option_map Z.of_N (parse_digits s)
  end.

(** ** The world outside the script

    gym and keras_gym are not part of the repository: the environment
    wrapped in [TrainMonitor], the value function [q], the replay buffer,
    the policy and the file system are one opaque [World], and every call
    into them either raises or returns a value together with the world it
    leaves behind. *)
Set Implicit Arguments.

Record Library (World Obs Act Reward Info Batch Policy Exn : Type) : Type := {
  (** the counters [env.T] and [env.ep] kept by [TrainMonitor] *)
  env_T : World -> Z;
  env_ep : World -> Z;
  (** [env.spec.max_episode_steps] *)
  max_episode_steps : Z;
  env_reset : World -> Exn + Obs * World;
  env_step : Act -> World -> Exn + (Obs * Reward * bool * Info) * World;
  (** the assignment [policy.epsilon = x] *)
  policy_assign_epsilon : float -> World -> World;
  (** [policy(s)] *)
  policy_call : Obs -> World -> Exn + Act * World;
  (** [policy.set_epsilon(x)], which returns a policy *)
  policy_set_epsilon : float -> World -> Exn + Policy * World;
  buffer_add : Obs -> Act -> Reward -> bool -> Z -> World -> Exn + unit * World;
  buffer_sample : World -> Exn + Batch * World;
  q_batch_update : Batch -> World -> Exn + unit * World;
  q_sync_target_model : World -> Exn + unit * World;
  generate_gif : Policy -> string -> Z * Z -> World -> Exn + unit * World;
  os_makedirs : string -> bool -> World -> Exn + unit * World;
  (** the exception [float_of_int] raises *)
  overflow_error : Exn
}.

(** A small library to run the script on: the world is the pair of
    counters [(env.T, env.ep)]; [env.step] counts one step, ends the
    episode on even counts and raises when the counter is [fail_at];
    [env.reset] counts one episode; [generate_gif] plays 100 steps; nothing
    else changes the world. *)
Definition toy (fail_at : Z)
  : Library (Z * Z) Z Z Z unit nat unit string :=
  {| env_T := fst;
     env_ep := snd;
     max_episode_steps := 3;
     env_reset := fun w => inr (0, (fst w, snd w + 1));
     env_step := fun a w =>
       if fst w =? fail_at then inl "env.step failed"%string
       else inr ((fst w + 1, 1, (fst w + 1) mod 2 =? 0, tt),
                 (fst w + 1, snd w));
     policy_assign_epsilon := fun _ w => w;
     policy_call := fun s w => inr (s, w);
     policy_set_epsilon := fun _ w => inr (tt, w);
     buffer_add := fun _ _ _ _ _ w => inr (tt, w);
     buffer_sample := fun w => inr (32%nat, w);
     q_batch_update := fun _ w => inr (tt, w);
     q_sync_target_model := fun w => inr (tt, w);
     generate_gif := fun _ _ _ w => inr (tt, (fst w + 100, snd w));
     os_makedirs := fun _ _ w => inr (tt, w);
     overflow_error := "OverflowError"%string |}.

Section TrainingLoop.

Context {World Obs Act Reward Info Batch Policy Exn : Type}.
Variable lib : Library World Obs Act Reward Info Batch Policy Exn.

(** The calls the script makes, with their arguments. *)
Inductive call : Type :=
| EnvReset
| EnvStep (a : Act)
| PolicyCall (s : Obs)
| PolicySetEpsilon (x : float)
| BufferAdd (s : Obs) (a : Act) (r : Reward) (done : bool) (ep : Z)
| BufferSample
| QBatchUpdate (b : Batch)
| QSyncTargetModel
| GenerateGif (policy : Policy) (filepath : string) (resize_to : Z * Z)
| OsMakedirs (path : string) (exist_ok : bool).

(** One call as the run saw it: the world it was made in, and the
    exception it raised, if any. *)
Record event : Type := {
  ev_call : call;
  ev_world : World;
  ev_raised : option Exn
}.

(** A piece of the script: from a world, the calls made, and either the
    exception that ended it or its value and the world after it. *)
Definition prog (A : Type) : Type :=
  World -> list event * (Exn + A * World).

Definition ret {A : Type} (a : A) : prog A :=
  fun w => ([], inr (a, w)).

Definition bind {A B : Type} (p : prog A) (k : A -> prog B) : prog B :=
  fun w =>
    match p w with
    | (tr, inl e) => (tr, inl e)
    | (tr, inr (a, w')) => let (tr', r) := k a w' in (tr ++ tr', r)
    end.

Definition raise {A : Type} (e : Exn) : prog A :=
  fun w => ([], inl e).

Definition read {A : Type} (f : World -> A) : prog A :=
  fun w => ([], inr (f w, w)).

Definition write (f : World -> World) : prog unit :=
  fun w => ([], inr (tt, f w)).

Definition outcome {A : Type} (r : Exn + A * World) : option Exn :=
  match r with
  | inl e => Some e
  | inr _ => None
  end.

(** A call into the libraries: recorded, then raising or returning as the
    library does. *)
Definition invoke {A : Type} (c : call) (f : World -> Exn + A * World)
  : prog A :=
  fun w => ([Build_event c w (outcome (f w))], f w).

Definition trace_of {A : Type} (p : prog A) (w : World) : list event :=
  fst (p w).

Definition result_of {A : Type} (p : prog A) (w : World)
  : Exn + A * World :=
  snd (p w).

Declare Scope prog_scope.
Delimit Scope prog_scope with prog.
Notation "x <- c ;; k" := (bind c (fun x => k))
  (at level 61, c at next level, right associativity) : prog_scope.
Notation "c ;; k" := (bind c (fun _ => k))
  (at level 61, right associativity) : prog_scope.
Local Open Scope prog_scope.

(** *** Static parameters (lines 47-50) *)

Definition num_episodes : Z := 3000000.
Definition num_steps : Z := max_episode_steps lib.
Definition buffer_warmup_period : Z := 50000.
Definition target_model_sync_period : Z := 10000.

(** *** The loop (lines 53-80) *)

(** [epsilon(env.T)] inside the script. *)
Definition eval_epsilon (T : Z) : prog float :=
  match epsilon T with
  | Some x => ret x
  | None => raise (overflow_error lib)
  end.

(** Lines 54-60. *)
Definition make_gif : prog unit :=
  ep <- read (env_ep lib) ;;
  if ep mod 10 =? 0 then
    T <- read (env_T lib) ;;
    if T >? buffer_warmup_period then
      invoke (OsMakedirs gif_dir true) (os_makedirs lib gif_dir true) ;;
      p <- invoke (PolicySetEpsilon 0.01) (policy_set_epsilon lib 0.01) ;;
      ep' <- read (env_ep lib) ;;
      invoke (GenerateGif p (gif_path ep') (320, 420))
             (generate_gif lib p (gif_path ep') (320, 420))
    else ret tt
  else ret tt.

(** Lines 65-69: act, observe, store. *)
Definition step_act (s : Obs) : prog (bool * Obs) :=
  T <- read (env_T lib) ;;
  x <- eval_epsilon T ;;
  write (policy_assign_epsilon lib x) ;;
  a <- invoke (PolicyCall s) (policy_call lib s) ;;
  o <- invoke (EnvStep a) (env_step lib a) ;;
  let '(s_next, r, done, info) := o in
  ep <- read (env_ep lib) ;;
  invoke (BufferAdd s a r done ep) (buffer_add lib s a r done ep) ;;
  ret (done, s_next).

(** Lines 71-72. *)
Definition step_learn : prog unit :=
  T <- read (env_T lib) ;;
  if T >? buffer_warmup_period then
    b <- invoke BufferSample (buffer_sample lib) ;;
    invoke (QBatchUpdate b) (q_batch_update lib b)
  else ret tt.

(** Lines 74-75. *)
Definition step_sync : prog unit :=
  T <- read (env_T lib) ;;
  if T mod target_model_sync_period =? 0 then
    invoke QSyncTargetModel (q_sync_target_model lib)
  else ret tt.

(** Lines 65-72. *)
Definition step_act_learn (s : Obs) : prog (bool * Obs) :=
  x <- step_act s ;;
  step_learn ;;
  ret x.

(** Lines 65-75, returning [done] and [s_next]. *)
Definition train_step (s : Obs) : prog (bool * Obs) :=
  x <- step_act_learn s ;;
  step_sync ;;
  ret x.

(** Lines 64-80: [for t in range(n)], left by [break] when [done]. *)
Fixpoint steps (n : nat) (s : Obs) : prog unit :=
  match n with
  | O => ret tt
  | S n' =>
      x <- train_step s ;;
      let '(done, s_next) := x in
      if done then ret tt else steps n' s_next
  end.

(** Lines 54-80: the body of the outer loop. *)
Definition episode : prog unit :=
  make_gif ;;
  s <- invoke EnvReset (env_reset lib) ;;
  steps (Z.to_nat num_steps) s.

(** Line 53: [for _ in range(n)]. *)
Fixpoint episodes (n : nat) : prog unit :=
  match n with
  | O => ret tt
  | S n' => episode ;; episodes n'
  end.

Definition training_loop : prog unit :=
  episodes (Z.to_nat num_episodes).

(** *** Reading traces *)

Definition is_sync (c : call) : bool :=
  match c with QSyncTargetModel => true | _ => false end.

Definition is_sample (c : call) : bool :=
  match c with BufferSample => true | _ => false end.

Definition is_batch_update (c : call) : bool :=
  match c with QBatchUpdate _ => true | _ => false end.


Definition count_calls (f : call -> bool) (tr : list event) : nat :=
  List.length (filter (fun ev => f (ev_call ev)) tr).

(** What the library answers to a call made in world [w]: the exception it
    raises, if any. *)
Definition raises (c : call) (w : World) : option Exn :=
  match c with
  | EnvReset => outcome (env_reset lib w)
  | EnvStep a => outcome (env_step lib a w)
  | PolicyCall s => outcome (policy_call lib s w)
  | PolicySetEpsilon x => outcome (policy_set_epsilon lib x w)
  | BufferAdd s a r done ep => outcome (buffer_add lib s a r done ep w)
  | BufferSample => outcome (buffer_sample lib w)
  | QBatchUpdate b => outcome (q_batch_update lib b w)
  | QSyncTargetModel => outcome (q_sync_target_model lib w)
  | GenerateGif p path size => outcome (generate_gif lib p path size w)
  | OsMakedirs path exist_ok => outcome (os_makedirs lib path exist_ok w)
  end.

(** [all_events P p]: every call [p] makes, from any world, satisfies
    [P]. *)
Definition all_events {A : Type} (P : event -> Prop) (p : prog A) : Prop :=
  forall w, Forall P (trace_of p w).

(** No recorded call raised. *)
Definition quiet (tr : list event) : Prop :=
  Forall (fun ev => ev_raised ev = None) tr.

(** [p] handles no exception: when it ends with one, that exception was
    raised by its last call, or it is the overflow of [epsilon], and no
    earlier call raised. *)
Definition propagating {A : Type} (p : prog A) : Prop :=
  forall w,
    match result_of p w with
    | inr _ => quiet (trace_of p w)
    | inl e =>
        (exists tr ev,
            trace_of p w = tr ++ [ev] /\ quiet tr /\ ev_raised ev = Some e) \/
        (quiet (trace_of p w) /\ e = overflow_error lib)
    end.

(** *** More ways to read traces *)

Definition is_policy_call (c : call) : bool :=
  match c with PolicyCall _ => true | _ => false end.

Definition is_reset (c : call) : bool :=
  match c with EnvReset => true | _ => false end.

Definition is_env_step (c : call) : bool :=
  match c with EnvStep _ => true | _ => false end.

(** [local_events Q p]: whenever [p] makes a call [ev], [Q] holds of the
    calls [p] made before it and of [ev]. *)
Definition local_events {A : Type} (Q : list event -> event -> Prop)
  (p : prog A) : Prop :=
  forall w tr1 ev tr2, trace_of p w = tr1 ++ ev :: tr2 -> Q tr1 ev.

(** The observation the environment handed out last, as a reader of the
    trace knows it: [env.reset()] and a call of [env.step] that did not
    report [done] hand out the state they return; a call of [env.step] that
    reported [done], or a call of either that raised, leaves none; other
    calls do not touch it. *)
Definition next_obs (cur : option Obs) (ev : event) : option Obs :=
  match ev_call ev with
  | EnvReset =>
      match env_reset lib (ev_world ev) with
      | inr (s, _) => Some s
      | inl _ => None
      end
  | EnvStep a =>
      match env_step lib a (ev_world ev) with
      | inr ((s_next, _, false, _), _) => Some s_next
      | _ => None
      end
  | _ => cur
  end.

Definition last_obs (cur : option Obs) (tr : list event) : option Obs :=
  fold_left next_obs tr cur.

(** Every [policy(s)] call of the trace is made on the observation the
    environment handed out last. *)
Fixpoint acts_on_last_obs (cur : option Obs) (tr : list event) : Prop :=
  match tr with
  | [] => True
  | ev :: tr' =>
      (forall s, ev_call ev = PolicyCall s -> cur = Some s) /\
      acts_on_last_obs (next_obs cur ev) tr'
  end.

(** What holds of a [policy(s)] call that acts on the schedule: it is made
    in the world that assigning [epsilon(env.T)] to [policy.epsilon] has
    just produced, and for a non-negative [env.T] the assigned rate lies
    in [0.01, 1.0]. *)
Definition on_schedule (ev : event) : Prop :=
  is_policy_call (ev_call ev) = true ->
  exists w0 x,
    epsilon (env_T lib w0) = Some x /\
    ev_world ev = policy_assign_epsilon lib x w0 /\
    (0 <= env_T lib w0 ->
     (0.01 <=? x)%float = true /\ (x <=? 1)%float = true).

(** [Q] keeps holding when earlier calls are put in front. *)
Definition extensible (Q : list event -> event -> Prop) : Prop :=
  forall pre tr1 ev, Q tr1 ev -> Q (pre ++ tr1) ev.

(** What holds of a [buffer.add(s, a, r, done, ep)] call that stores what
    happened: the two calls before it are [policy(s)], which returned [a],
    and [env.step(a)], which returned [r] and [done] and left the world
    the transition is stored in; [ep] is [env.ep] in that world. *)
Definition stores_what_happened (tr1 : list event) (ev : event) : Prop :=
  forall s a r done ep,
    ev_call ev = BufferAdd s a r done ep ->
    exists tr0 evp eve s_next info,
      tr1 = tr0 ++ [evp; eve] /\
      ev_call evp = PolicyCall s /\
      policy_call lib s (ev_world evp) = inr (a, ev_world eve) /\
      ev_call eve = EnvStep a /\
      env_step lib a (ev_world eve) =
        inr ((s_next, r, done, info), ev_world ev) /\
      ep = env_ep lib (ev_world ev).

(** What holds of the calls of the update statement (line 72):
    [buffer.sample()] comes right after the [buffer.add] call of the step,
    which returned; [q.batch_update(b)] comes right after a
    [buffer.sample()] call that was made with [env.T] above the warm-up
    period and returned [b]. *)
Definition learns_from_fresh_sample (tr1 : list event) (ev : event) : Prop :=
  (ev_call ev = BufferSample ->
   exists tr0 eva s a r done ep,
     tr1 = tr0 ++ [eva] /\
     ev_call eva = BufferAdd s a r done ep /\
     buffer_add lib s a r done ep (ev_world eva) = inr (tt, ev_world ev)) /\
  (forall b,
      ev_call ev = QBatchUpdate b ->
      exists tr0 evs,
        tr1 = tr0 ++ [evs] /\
        ev_call evs = BufferSample /\
        buffer_sample lib (ev_world evs) = inr (b, ev_world ev) /\
        env_T lib (ev_world evs) > buffer_warmup_period).

(** What holds of a [generate_gif] call that plays the greedy policy: the
    call before it is [policy.set_epsilon(0.01)], and the policy it is
    given is the one that call returned. *)
Definition plays_greedy_policy (tr1 : list event) (ev : event) : Prop :=
  forall p path size,
    ev_call ev = GenerateGif p path size ->
    exists tr0 evs,
      tr1 = tr0 ++ [evs] /\
      ev_call evs = PolicySetEpsilon 0.01 /\
      policy_set_epsilon lib 0.01 (ev_world evs) = inr (p, ev_world ev).

(** [future_events Q p]: whenever [p] makes a call [ev], [Q] holds of [ev]
    and of the calls [p] makes after it. *)
Definition future_events {A : Type} (Q : event -> list event -> Prop)
  (p : prog A) : Prop :=
  forall w tr1 ev tr2, trace_of p w = tr1 ++ ev :: tr2 -> Q ev tr2.

(** [Q] keeps holding when later calls are appended. *)
Definition right_extensible (Q : event -> list event -> Prop) : Prop :=
  forall ev tr2 post, Q ev tr2 -> Q ev (tr2 ++ post).

(** The call [ev] is the last call of lines 65-72 in some training step,
    and it returned, leaving the world [w2] in which line 74 is reached:
    either [buffer.add], with [env.T] not above the warm-up period (line
    72 is skipped), or [q.batch_update]. *)
Definition reaches_sync_check (ev : event) (w2 : World) : Prop :=
  (exists s a r done ep,
      ev_call ev = BufferAdd s a r done ep /\
      buffer_add lib s a r done ep (ev_world ev) = inr (tt, w2) /\
      env_T lib w2 <= buffer_warmup_period) \/
  (exists b,
      ev_call ev = QBatchUpdate b /\
      q_batch_update lib b (ev_world ev) = inr (tt, w2)).

(** When a step reaches line 74 with [env.T] divisible by the period, the
    next call is [q.sync_target_model()], made in that world. *)
Definition syncs_when_due (ev : event) (tr2 : list event) : Prop :=
  forall w2,
    reaches_sync_check ev w2 ->
    env_T lib w2 mod target_model_sync_period = 0 ->
    exists rest,
      tr2 = Build_event QSyncTargetModel w2
              (outcome (q_sync_target_model lib w2)) :: rest.

(** A [q.sync_target_model()] call comes right after the call with which
    its step reached line 74, in the world that call left, and [env.T] is
    divisible by the period there. *)
Definition syncs_only_when_due (tr1 : list event) (ev : event) : Prop :=
  ev_call ev = QSyncTargetModel ->
  exists tr0 ev0,
    tr1 = tr0 ++ [ev0] /\
    reaches_sync_check ev0 (ev_world ev) /\
    env_T lib (ev_world ev) mod target_model_sync_period = 0.

(** When [buffer.add] returns with [env.T] above the warm-up period, the
    next call is [buffer.sample()], made in the world [buffer.add] left,
    and when that returns a batch the call after it is [q.batch_update]
    with that batch. *)
Definition learns_when_warm (ev : event) (tr2 : list event) : Prop :=
  forall s a r done ep w1,
    ev_call ev = BufferAdd s a r done ep ->
    buffer_add lib s a r done ep (ev_world ev) = inr (tt, w1) ->
    env_T lib w1 > buffer_warmup_period ->
    exists rest,
      tr2 = Build_event BufferSample w1 (outcome (buffer_sample lib w1))
            :: rest /\
      forall b w',
        buffer_sample lib w1 = inr (b, w') ->
        exists rest',
          rest = Build_event (QBatchUpdate b) w'
                   (outcome (q_batch_update lib b w')) :: rest'.

(** A [buffer.sample()] call comes right after a [buffer.add] call that
    returned, leaving the world the sample is taken in, with [env.T] above
    the warm-up period there. *)
Definition samples_only_when_warm (tr1 : list event) (ev : event) : Prop :=
  ev_call ev = BufferSample ->
  env_T lib (ev_world ev) > buffer_warmup_period /\
  exists tr0 eva s a r done ep,
    tr1 = tr0 ++ [eva] /\
    ev_call eva = BufferAdd s a r done ep /\
    buffer_add lib s a r done ep (ev_world eva) = inr (tt, ev_world ev).

(** A [q.batch_update(b)] call comes right after a [buffer.sample()] call
    that was made with [env.T] above the warm-up period and returned
    [b]. *)
Definition updates_only_when_warm (tr1 : list event) (ev : event) : Prop :=
  forall b,
    ev_call ev = QBatchUpdate b ->
    exists tr0 evs,
      tr1 = tr0 ++ [evs] /\
      ev_call evs = BufferSample /\
      buffer_sample lib (ev_world evs) = inr (b, ev_world ev) /\
      env_T lib (ev_world evs) > buffer_warmup_period.


(** The number of [env.step] calls since the last [env.reset()] call. *)
Definition count_step (k : nat) (ev : event) : nat :=
  match ev_call ev with
  | EnvReset => O
  | EnvStep _ => S k
  | _ => k
  end.

Definition steps_since_reset (k : nat) (tr : list event) : nat :=
  fold_left count_step tr k.

(** Every [policy(s)] call of the trace is made with fewer than [budget]
    steps taken since the last reset. *)
Fixpoint acts_within (budget k : nat) (tr : list event) : Prop :=
  match tr with
  | [] => True
  | ev :: tr' =>
      (is_policy_call (ev_call ev) = true -> (k < budget)%nat) /\
      acts_within budget (count_step k ev) tr'
  end.

End TrainingLoop.

Unset Implicit Arguments.

(** ** Facts about the schedule *)

Lemma check_block_sound (P : Z -> bool) (d : nat) :
  forall lo, check_block P d lo = true ->
  forall i, lo <= i < lo + 2 ^ Z.of_nat d -> P i = true.
Proof.
  induction d as [|d IH]; intros lo H i Hi.
  - simpl in *. replace i with lo by lia. exact H.
  - cbn [check_block] in H. apply andb_true_iff in H as [H1 H2].
    rewrite Nat2Z.inj_succ, Z.pow_succ_r in Hi by lia.
    destruct (Z_lt_ge_dec i (lo + 2 ^ Z.of_nat d)).
    + apply (IH lo H1). lia.
    + apply (IH _ H2). lia.
Qed.

Lemma float_of_int_small (n : Z) :
  0 <= n < 2 ^ 63 -> float_of_int n = float_of_small n.
Proof.
  intros Hn. unfold float_of_int, float_of_small, round_int.
  rewrite <- (SF2Prim_Prim2SF (of_uint63 (Uint63.of_Z n))).
  rewrite of_uint63_spec, Uint63.of_Z_spec.
  rewrite Z.mod_small; [reflexivity|].
  change wB with (2 ^ 63). lia.
Qed.

Lemma epsilon_small_eq (T : Z) : 0 <= T -> epsilon T = epsilon_small T.
Proof.
  intros HT. unfold epsilon, epsilon_small, segment1, segment2, M.
  destruct (T <? 1000000) eqn:H1.
  - apply Z.ltb_lt in H1.
    rewrite !float_of_int_small by lia. reflexivity.
  - apply Z.ltb_ge in H1. destruct (T <? 2 * 1000000) eqn:H2; [|reflexivity].
    apply Z.ltb_lt in H2.
    rewrite !float_of_int_small by lia. reflexivity.
Qed.

Lemma all_steps_ok : check_block step_ok 21 0 = true.
Proof. vm_cast_no_check (eq_refl true). Qed.

(** The order of binary64 numbers, through its specification on
    [spec_float]. *)
Ltac cmp_cases :=
  repeat match goal with
  | H : context [Z.compare ?x ?y] |- _ => destruct (Z.compare_spec x y)
  | |- context [Z.compare ?x ?y] => destruct (Z.compare_spec x y)
  | H : context [Pos.compare ?x ?y] |- _ => destruct (Pos.compare_spec x y)
  | |- context [Pos.compare ?x ?y] => destruct (Pos.compare_spec x y)
  end.

Lemma SFleb_trans (a b c : spec_float) :
  SFleb a b = true -> SFleb b c = true -> SFleb a c = true.
Proof.
  unfold SFleb, SFcompare.
  change (PosDef.Pos.compare_cont Eq) with Pos.compare.
  destruct a as [sa|sa| |sa ma ea], b as [sb|sb| |sb mb eb],
    c as [sc|sc| |sc mc ec];
    try destruct sa; try destruct sb; try destruct sc; simpl;
    try congruence; intros; cmp_cases; simpl in *;
    subst; try congruence; try lia.
Qed.

Lemma SFleb_refl_r (a b : spec_float) : SFleb a b = true -> SFleb b b = true.
Proof.
  unfold SFleb, SFcompare.
  change (PosDef.Pos.compare_cont Eq) with Pos.compare.
  destruct a as [sa|sa| |sa ma ea], b as [sb|sb| |sb mb eb];
    try destruct sa; try destruct sb; simpl; try congruence; intros _;
    rewrite Z.compare_refl, Pos.compare_refl; reflexivity.
Qed.

Lemma float_leb_trans (x y z : float) :
  (x <=? y)%float = true -> (y <=? z)%float = true -> (x <=? z)%float = true.
Proof. rewrite !FloatAxioms.leb_spec. apply SFleb_trans. Qed.

Lemma float_leb_refl_r (x y : float) :
  (x <=? y)%float = true -> (y <=? y)%float = true.
Proof. rewrite !FloatAxioms.leb_spec. apply SFleb_refl_r. Qed.

(** Every non-negative step count: the schedule returns, its value lies in
    the interval of its segment, and the value one step later is not
    larger. *)
Lemma epsilon_steps (T : Z) :
  0 <= T ->
  exists f g, epsilon T = Some f /\ epsilon (T + 1) = Some g /\
              in_segment T f = true /\ (g <=? f)%float = true.
Proof.
  intros HT. destruct (Z_lt_ge_dec T (2 ^ 21)) as [Hlt|Hge].
  - pose proof (check_block_sound step_ok 21 0 all_steps_ok T) as H.
    specialize (H ltac:(change (Z.of_nat 21) with 21; lia)).
    unfold step_ok in H. rewrite <- !epsilon_small_eq in H by lia.
    destruct (epsilon T) as [f|]; [|discriminate].
    destruct (epsilon (T + 1)) as [g|]; [|discriminate].
    apply andb_true_iff in H as [H1 H2]. exists f, g. auto.
  - change (2 ^ 21) with 2097152 in Hge.
    exists 0.01%float, 0.01%float. unfold epsilon, in_segment, M.
    rewrite !(proj2 (Z.ltb_ge _ _)) by lia. repeat split; reflexivity.
Qed.

Lemma epsilon_returns (T : Z) : 0 <= T -> epsilon T = Some (epsilon_value T).
Proof.
  intros HT. destruct (epsilon_steps T HT) as (f & g & Hf & _).
  unfold epsilon_value. rewrite Hf. reflexivity.
Qed.

Lemma float_of_int_defined (n : Z) (f : float) :
  float_of_int n = Some f -> f = round_int n.
Proof.
  unfold float_of_int. destruct (is_infinity (round_int n)); congruence.
Qed.

Lemma epsilon_value_step (T : Z) :
  0 <= T -> (epsilon_value (T + 1) <=? epsilon_value T)%float = true.
Proof.
  intros HT. destruct (epsilon_steps T HT) as (f & g & Hf & Hg & _ & Hle).
  unfold epsilon_value. rewrite Hf, Hg. exact Hle.
Qed.

Lemma epsilon_value_mono (T1 T2 : Z) :
  0 <= T1 <= T2 -> (epsilon_value T2 <=? epsilon_value T1)%float = true.
Proof.
  intros [H0 H12]. replace T2 with (T1 + (T2 - T1)) by lia.
  assert (Hd : 0 <= T2 - T1) by lia. revert Hd.
  generalize (T2 - T1) as d. apply natlike_ind.
  - rewrite Z.add_0_r.
    apply (float_leb_refl_r (epsilon_value (T1 + 1))), epsilon_value_step, H0.
  - intros d Hd IH. replace (T1 + Z.succ d) with (T1 + d + 1) by lia.
    apply float_leb_trans with (y := epsilon_value (T1 + d)); [|exact IH].
    apply epsilon_value_step. lia.
Qed.

(** C1 (binary64 and exact readings). For a non-negative step count [T]
    the schedule raises nothing and returns [1 - 0.9 * T / M] when
    [T < M], [0.1 - 0.09 * (T - M) / M] when [M <= T < 2 * M], and [0.01]
    when [2 * M <= T]; in binary64 each operation rounds to nearest and
    the integer operand enters as [round_int]. *)
Theorem epsilon_piecewise (T : Z) :
  0 <= T ->
  ((T < M ->
    epsilon T = Some (1 - 0.9 * round_int T / 1000000)%float) /\
   (M <= T < 2 * M ->
    epsilon T = Some (0.1 - 0.09 * round_int (T - M) / 1000000)%float) /\
   (2 * M <= T -> epsilon T = Some 0.01%float)) /\
  ((T < M -> epsilon_exact T == 1 - (9 # 10) * inject_Z T / inject_Z M) /\
   (M <= T < 2 * M ->
    epsilon_exact T == (1 # 10) - (9 # 100) * inject_Z (T - M) / inject_Z M) /\
   (2 * M <= T -> epsilon_exact T == 1 # 100)).
Proof.
  intros HT. pose proof (epsilon_returns T HT) as Hret.
  assert (HM : float_of_int M = Some 1000000%float) by (vm_compute; reflexivity).
  assert (H1 : float_of_int 1 = Some 1%float) by (vm_compute; reflexivity).
  unfold epsilon, epsilon_exact in *. split; (split; [|split]); intros H.
  - rewrite (proj2 (Z.ltb_lt _ _)) in * by lia. unfold segment1 in *.
    rewrite HM, H1 in *. destruct (float_of_int T) as [t|] eqn:Ht;
      [|discriminate]. rewrite (float_of_int_defined _ _ Ht). reflexivity.
  - rewrite (proj2 (Z.ltb_ge _ _)), (proj2 (Z.ltb_lt T _)) in * by lia.
    unfold segment2 in *. rewrite HM in *.
    destruct (float_of_int (T - M)) as [t|] eqn:Ht; [|discriminate].
    rewrite (float_of_int_defined _ _ Ht). reflexivity.
  - rewrite !(proj2 (Z.ltb_ge _ _)) by lia. reflexivity.
  - rewrite (proj2 (Z.ltb_lt _ _)) by lia. reflexivity.
  - rewrite (proj2 (Z.ltb_ge _ _)), (proj2 (Z.ltb_lt T _)) by lia. reflexivity.
  - rewrite !(proj2 (Z.ltb_ge _ _)) by lia. reflexivity.
Qed.

Lemma epsilon_piecewise_witness :
  epsilon 500000 = Some (1 - 0.9 * round_int 500000 / 1000000)%float.
Proof.
  apply (epsilon_piecewise 500000); unfold M; lia.
Defined.

(** Below zero the schedule can raise: the product [0.9 * T] converts
    [T], and CPython refuses an integer beyond the binary64 range. *)
Example epsilon_overflow : epsilon (- 10 ^ 400) = None.
Proof. vm_compute. reflexivity. Qed.

(** Linear inequalities between the exact segments. *)
Ltac q_lin :=
  unfold segment1_exact, segment2_exact, M, Qdiv;
  change (/ inject_Z 1000000)%Q with (1 # 1000000);
  unfold Qlt, Qle, Qeq, Qminus, Qplus, Qopp, Qmult, inject_Z;
  cbn [Qnum Qden]; rewrite ?Pos2Z.inj_mul; lia.

Ltac segment_of T :=
  unfold epsilon_exact, epsilon, M in *;
  first
    [ rewrite !(proj2 (Z.ltb_lt T 1000000)) in * by lia
    | rewrite !(proj2 (Z.ltb_ge T 1000000)),
        !(proj2 (Z.ltb_lt T (2 * 1000000))) in * by lia
    | rewrite !(proj2 (Z.ltb_ge T 1000000)),
        !(proj2 (Z.ltb_ge T (2 * 1000000))) in * by lia ].

(** C2. At the segment boundaries the schedule returns exactly [1.0],
    [0.1] and [0.01], in binary64 as well as over the rationals. *)
Theorem epsilon_at_boundaries :
  (epsilon 0 = Some 1%float /\
   epsilon 1000000 = Some 0.1%float /\
   epsilon 2000000 = Some 0.01%float) /\
  (epsilon_exact 0 == 1 /\
   epsilon_exact 1000000 == 1 # 10 /\
   epsilon_exact 2000000 == 1 # 100).
Proof.
  split; repeat split; vm_compute; reflexivity.
Qed.

(** C3. The schedule stays in (0.1, 1.0] on [0, M), in (0.01, 0.1] on
    [M, 2M) and equals 0.01 from 2M on: over exact rationals, and also for
    the binary64 values the code returns, compared with Python's [<] and
    [<=]. *)
Theorem epsilon_in_range (T : Z) :
  ((0 <= T < M ->
    (1 # 10 < epsilon_exact T)%Q /\ (epsilon_exact T <= 1)%Q) /\
   (M <= T < 2 * M ->
    (1 # 100 < epsilon_exact T)%Q /\ (epsilon_exact T <= 1 # 10)%Q) /\
   (2 * M <= T -> epsilon_exact T == 1 # 100)) /\
  ((0 <= T < M ->
    exists f, epsilon T = Some f /\
              (0.1 <? f)%float = true /\ (f <=? 1)%float = true) /\
   (M <= T < 2 * M ->
    exists f, epsilon T = Some f /\
              (0.01 <? f)%float = true /\ (f <=? 0.1)%float = true) /\
   (2 * M <= T -> epsilon T = Some 0.01%float)).
Proof.
  split; (split; [|split]); unfold M; intros H.
  - segment_of T. split; q_lin.
  - segment_of T. split; q_lin.
  - segment_of T. reflexivity.
  - destruct (epsilon_steps T ltac:(lia)) as (f & g & Hf & _ & Hin & _).
    exists f. split; [exact Hf|]. unfold in_segment, M in Hin.
    rewrite (proj2 (Z.ltb_lt T 1000000)) in Hin by lia.
    apply andb_true_iff in Hin. exact Hin.
  - destruct (epsilon_steps T ltac:(lia)) as (f & g & Hf & _ & Hin & _).
    exists f. split; [exact Hf|]. unfold in_segment, M in Hin.
    rewrite (proj2 (Z.ltb_ge T 1000000)),
      (proj2 (Z.ltb_lt T (2 * 1000000))) in Hin by lia.
    apply andb_true_iff in Hin. exact Hin.
  - segment_of T. reflexivity.
Qed.

Lemma epsilon_in_range_witness :
  exists f, epsilon 1999999 = Some f /\
            (0.01 <? f)%float = true /\ (f <=? 0.1)%float = true.
Proof.
  apply (epsilon_in_range 1999999). unfold M. lia.
Defined.

(** C4, as the code has it. Over exact rationals the two sloped segments
    meet the next segment at the breakpoints.  In binary64 the
    first-segment expression at [T = M] is 0.09999999999999998, two units
    in the last place below the 0.1 that [epsilon M] returns, and the
    second-segment expression at [T = 2M] is 0.010000000000000009, five
    units in the last place above the 0.01 that [epsilon (2M)] returns. *)
Theorem breakpoints_exact_and_binary64 :
  (segment1_exact M == epsilon_exact M /\ epsilon_exact M == 1 # 10 /\
   segment2_exact (2 * M) == epsilon_exact (2 * M) /\
   epsilon_exact (2 * M) == 1 # 100) /\
  (segment1 M = Some 0.09999999999999998%float /\
   epsilon M = Some 0.1%float /\
   next_down (next_down 0.1) = 0.09999999999999998%float) /\
  (segment2 (2 * M) = Some 0.010000000000000009%float /\
   epsilon (2 * M) = Some 0.01%float /\
   next_up (next_up (next_up (next_up (next_up 0.01)))) =
   0.010000000000000009%float).
Proof.
  split; [|split]; repeat split; vm_compute; reflexivity.
Qed.

(** C4, as the claim states it for the values Python computes: it fails
    at both breakpoints. *)
Lemma breakpoints_differ_binary64 :
  segment1 M <> epsilon M /\ segment1 M <> Some 0.1%float /\
  segment2 (2 * M) <> epsilon (2 * M) /\
  segment2 (2 * M) <> Some 0.01%float.
Proof.
  assert (D1 : forall o, segment1 M = o -> o <> Some 0.1%float).
  { intros o H1 H2. rewrite H2 in H1.
    apply (f_equal (fun o => match o with
                             | Some f => (f <? 0.1)%float
                             | None => false
                             end)) in H1.
    vm_compute in H1. discriminate. }
  assert (D2 : forall o, segment2 (2 * M) = o -> o <> Some 0.01%float).
  { intros o H1 H2. rewrite H2 in H1.
    apply (f_equal (fun o => match o with
                             | Some f => (0.01 <? f)%float
                             | None => false
                             end)) in H1.
    vm_compute in H1. discriminate. }
  repeat split; intros H.
  - apply (D1 _ H). vm_compute. reflexivity.
  - apply (D1 _ H). reflexivity.
  - apply (D2 _ H). vm_compute. reflexivity.
  - apply (D2 _ H). reflexivity.
Qed.

(** C9. The schedule never increases: for step counts [0 <= T1 <= T2]
    both evaluations return and [epsilon T1 >= epsilon T2], for the
    binary64 values and for the exact ones. *)
Theorem epsilon_non_increasing (T1 T2 : Z) :
  0 <= T1 <= T2 ->
  (exists f1 f2, epsilon T1 = Some f1 /\ epsilon T2 = Some f2 /\
                 (f2 <=? f1)%float = true) /\
  (epsilon_exact T2 <= epsilon_exact T1)%Q.
Proof.
  intros H. split.
  - exists (epsilon_value T1), (epsilon_value T2).
    rewrite <- !epsilon_returns by lia.
    repeat split. apply epsilon_value_mono, H.
  - destruct (Z_lt_ge_dec T1 1000000); [|destruct (Z_lt_ge_dec T1 2000000)];
      (destruct (Z_lt_ge_dec T2 1000000);
       [|destruct (Z_lt_ge_dec T2 2000000)]); try lia;
      segment_of T1; segment_of T2; q_lin.
Qed.

Lemma epsilon_non_increasing_witness :
  (exists f1 f2, epsilon 999999 = Some f1 /\ epsilon 1000000 = Some f2 /\
                 (f2 <=? f1)%float = true) /\
  (epsilon_exact 1000000 <= epsilon_exact 999999)%Q.
Proof.
  apply (epsilon_non_increasing 999999 1000000). lia.
Defined.
(** ** More facts about the order of binary64 numbers *)

Lemma SFltb_leb (a b : spec_float) : SFltb a b = true -> SFleb a b = true.
Proof.
  unfold SFltb, SFleb. destruct (SFcompare a b) as [[| |]|]; congruence.
Qed.

Lemma float_ltb_leb (x y : float) :
  (x <? y)%float = true -> (x <=? y)%float = true.
Proof. rewrite FloatAxioms.ltb_spec, FloatAxioms.leb_spec. apply SFltb_leb. Qed.

Lemma SFleb_ltb_trans (a b c : spec_float) :
  SFleb a b = true -> SFltb b c = true -> SFltb a c = true.
Proof.
  unfold SFleb, SFltb, SFcompare.
  change (PosDef.Pos.compare_cont Eq) with Pos.compare.
  destruct a as [sa|sa| |sa ma ea], b as [sb|sb| |sb mb eb],
    c as [sc|sc| |sc mc ec];
    try destruct sa; try destruct sb; try destruct sc; simpl;
    try congruence; intros; cmp_cases; simpl in *;
    subst; try congruence; try lia.
Qed.

Lemma float_leb_ltb_trans (x y z : float) :
  (x <=? y)%float = true -> (y <? z)%float = true -> (x <? z)%float = true.
Proof.
  rewrite FloatAxioms.leb_spec, !FloatAxioms.ltb_spec. apply SFleb_ltb_trans.
Qed.

Lemma SFltb_irrefl (a : spec_float) : SFltb a a = false.
Proof.
  unfold SFltb, SFcompare.
  change (PosDef.Pos.compare_cont Eq) with Pos.compare.
  destruct a as [s|s| |s m e]; try destruct s; simpl; try reflexivity;
    rewrite Z.compare_refl, Pos.compare_refl; reflexivity.
Qed.

Lemma SFeqb_leb (a b : spec_float) :
  SFeqb a b = true -> SFleb a b = true /\ SFleb b a = true.
Proof.
  unfold SFeqb, SFleb, SFcompare.
  change (PosDef.Pos.compare_cont Eq) with Pos.compare.
  destruct a as [sa|sa| |sa ma ea], b as [sb|sb| |sb mb eb];
    try destruct sa; try destruct sb; simpl; try congruence;
    try (split; reflexivity);
    intros; cmp_cases; subst; simpl in *; try congruence;
    rewrite ?Z.compare_refl, ?Pos.compare_refl;
    try (split; reflexivity); try lia.
Qed.

(** For a non-negative step count the value of the schedule lies in
    [0.01, 1.0]. *)
Lemma epsilon_is_probability (T : Z) (x : float) :
  0 <= T -> epsilon T = Some x ->
  (0.01 <=? x)%float = true /\ (x <=? 1)%float = true.
Proof.
  intros HT Hx. destruct (epsilon_steps T HT) as (f & g & Hf & _ & Hin & _).
  rewrite Hx in Hf. injection Hf as <-. unfold in_segment, M in Hin.
  destruct (T <? 1000000); [|destruct (T <? 2 * 1000000)].
  - apply andb_true_iff in Hin as [H1 H2]. split; [|exact H2].
    apply float_leb_trans with (y := 0.1%float); [reflexivity|].
    apply float_ltb_leb, H1.
  - apply andb_true_iff in Hin as [H1 H2]. split; [apply float_ltb_leb, H1|].
    apply float_leb_trans with (y := 0.1%float); [exact H2|reflexivity].
  - rewrite FloatAxioms.eqb_spec in Hin. apply SFeqb_leb in Hin as [H1 H2].
    rewrite !FloatAxioms.leb_spec. split; [exact H2|].
    apply SFleb_trans with (b := Prim2SF 0.01); [exact H1|reflexivity].
Qed.

(** ** More facts about the schedule and the file names *)

(** *** The schedule strictly decreases while it anneals *)

Lemma check_ints_sound (P : int -> bool) (d : nat) :
  forall lo,
    check_ints P d lo = true ->
    Uint63.to_Z lo + 2 ^ Z.of_nat d <= wB ->
    forall i, Uint63.to_Z lo <= Uint63.to_Z i < Uint63.to_Z lo + 2 ^ Z.of_nat d ->
              P i = true.
Proof.
  induction d as [|d IH]; intros lo H Hb i Hi.
  - simpl in Hi. replace i with lo; [exact H|].
    apply Uint63.to_Z_inj. lia.
  - cbn [check_ints] in H. apply andb_true_iff in H as [H1 H2].
    rewrite Nat2Z.inj_succ, Z.pow_succ_r in Hi, Hb by lia.
    pose proof (Uint63.to_Z_bounded lo) as Hlo.
    assert (Hp : 0 < 2 ^ Z.of_nat d) by (apply Z.pow_pos_nonneg; lia).
    assert (Hadd : Uint63.to_Z (lo + Uint63.of_Z (2 ^ Z.of_nat d))%uint63
                   = Uint63.to_Z lo + 2 ^ Z.of_nat d).
    { rewrite Uint63.add_spec, Uint63.of_Z_spec.
      rewrite (Z.mod_small (2 ^ Z.of_nat d)) by lia.
      apply Z.mod_small. lia. }
    destruct (Z_lt_ge_dec (Uint63.to_Z i) (Uint63.to_Z lo + 2 ^ Z.of_nat d)).
    + apply (IH lo H1); lia.
    + apply (IH _ H2); rewrite Hadd; lia.
Qed.

Lemma all_strict_ok : check_ints strict_ok 21 0 = true.
Proof. vm_cast_no_check (eq_refl true). Qed.

Lemma to_Z_of_Z_small (T : Z) :
  0 <= T < 2 ^ 22 -> Uint63.to_Z (Uint63.of_Z T) = T.
Proof.
  intros H. rewrite Uint63.of_Z_spec. apply Z.mod_small.
  change wB with (2 ^ 63). lia.
Qed.

Lemma int_ltb_small (T c : Z) :
  0 <= T < 2 ^ 22 -> 0 <= c < 2 ^ 22 ->
  (Uint63.of_Z T <? Uint63.of_Z c)%uint63 = (T <? c).
Proof.
  intros HT Hc. pose proof (Uint63.ltb_spec (Uint63.of_Z T) (Uint63.of_Z c)) as H.
  rewrite !to_Z_of_Z_small in H by assumption.
  destruct (T <? c) eqn:E.
  - apply H, Z.ltb_lt, E.
  - apply Z.ltb_ge in E.
    destruct (Uint63.of_Z T <? Uint63.of_Z c)%uint63; [|reflexivity].
    assert (T < c) by (apply H; reflexivity). lia.
Qed.

Lemma epsilon_int_eq (T : Z) :
  0 <= T < 2 ^ 21 -> epsilon T = Some (epsilon_int (Uint63.of_Z T)).
Proof.
  intros HT. pose proof (epsilon_returns T ltac:(lia)) as Hret.
  rewrite epsilon_small_eq in Hret |- * by lia.
  unfold epsilon_small, epsilon_int, M in *.
  change 1000000%uint63 with (Uint63.of_Z 1000000).
  change 2000000%uint63 with (Uint63.of_Z 2000000).
  change (2 ^ 21) with 2097152 in HT.
  rewrite !int_ltb_small by (change (2 ^ 22) with 4194304; lia).
  change (2 * 1000000) with 2000000 in *.
  assert (HM : float_of_small 1000000 = Some 1000000%float)
    by (vm_compute; reflexivity).
  assert (H1 : float_of_small 1 = Some 1%float) by (vm_compute; reflexivity).
  rewrite HM, H1 in *.
  destruct (T <? 1000000) eqn:E1; [|destruct (T <? 2000000) eqn:E2].
  - unfold float_of_small in *.
    destruct (is_infinity (of_uint63 (Uint63.of_Z T))); [discriminate|].
    reflexivity.
  - apply Z.ltb_ge in E1. apply Z.ltb_lt in E2.
    replace (Uint63.of_Z T - Uint63.of_Z 1000000)%uint63
      with (Uint63.of_Z (T - 1000000)).
    + unfold float_of_small in *.
      destruct (is_infinity (of_uint63 (Uint63.of_Z (T - 1000000))));
        [discriminate|]. reflexivity.
    + apply Uint63.to_Z_inj. rewrite Uint63.sub_spec.
      rewrite !to_Z_of_Z_small by (change (2 ^ 22) with 4194304; lia).
      symmetry. apply Z.mod_small. change wB with (2 ^ 63). lia.
  - reflexivity.
Qed.

Lemma epsilon_value_strict_step (T : Z) :
  0 <= T < 2 * M ->
  (epsilon_value (T + 1) <? epsilon_value T)%float = true.
Proof.
  unfold M. intros HT. unfold epsilon_value.
  rewrite !epsilon_int_eq by (change (2 ^ 21) with 2097152; lia).
  pose proof (check_ints_sound strict_ok 21 0 all_strict_ok) as H.
  specialize (H ltac:(vm_compute; discriminate) (Uint63.of_Z T)).
  rewrite to_Z_of_Z_small in H by (change (2 ^ 22) with 4194304; lia).
  specialize (H ltac:(change (Uint63.to_Z 0) with 0;
                      change (2 ^ Z.of_nat 21) with 2097152; lia)).
  unfold strict_ok in H.
  change 2000000%uint63 with (Uint63.of_Z 2000000) in H.
  rewrite int_ltb_small in H by (change (2 ^ 22) with 4194304; lia).
  rewrite (proj2 (Z.ltb_lt T 2000000)) in H by lia.
  replace (Uint63.of_Z (T + 1)) with (Uint63.of_Z T + 1)%uint63; [exact H|].
  apply Uint63.to_Z_inj. rewrite Uint63.add_spec.
  rewrite !to_Z_of_Z_small by (change (2 ^ 22) with 4194304; lia).
  change (Uint63.to_Z 1) with 1. apply Z.mod_small.
  change wB with (2 ^ 63). lia.
Qed.

(** X8. While the schedule anneals ([T1 < 2M]), every later step count gets a
    strictly smaller exploration rate, in binary64 as over the rationals:
    rounding never makes two step counts share a rate before the floor, and
    the floor 0.01 is first returned at [2M]. *)
Theorem epsilon_strictly_decreasing (T1 T2 : Z) :
  0 <= T1 < T2 -> T1 < 2 * M ->
  (exists f1 f2, epsilon T1 = Some f1 /\ epsilon T2 = Some f2 /\
                 (f2 <? f1)%float = true) /\
  (epsilon_exact T2 < epsilon_exact T1)%Q.
Proof.
  intros H12 HM. split.
  - exists (epsilon_value T1), (epsilon_value T2).
    rewrite <- !epsilon_returns by lia. repeat split.
    apply float_leb_ltb_trans with (y := epsilon_value (T1 + 1)).
    + apply epsilon_value_mono. lia.
    + apply epsilon_value_strict_step. lia.
  - unfold M in HM.
    destruct (Z_lt_ge_dec T1 1000000);
      (destruct (Z_lt_ge_dec T2 1000000);
       [|destruct (Z_lt_ge_dec T2 2000000)]); try lia;
      segment_of T1; segment_of T2; q_lin.
Qed.

Lemma epsilon_strictly_decreasing_witness :
  exists f1 f2, epsilon 1999999 = Some f1 /\ epsilon 2000000 = Some f2 /\
                (f2 <? f1)%float = true.
Proof.
  apply (epsilon_strictly_decreasing 1999999 2000000); unfold M; lia.
Defined.

(** *** File names *)

Lemma uint_of_string_zeros (k : nat) (s : string) :
  NilEmpty.uint_of_string (zeros k ++ s) =
  option_map (Nat.iter k Decimal.D0) (NilEmpty.uint_of_string s).
Proof.
  induction k as [|k IH]; cbn [zeros append Nat.iter].
  - destruct (NilEmpty.uint_of_string s); reflexivity.
  - cbn [NilEmpty.uint_of_string]. rewrite IH.
    destruct (NilEmpty.uint_of_string s); reflexivity.
Qed.

Lemma of_uint_zeros (k : nat) (d : Decimal.uint) :
  N.of_uint (Nat.iter k Decimal.D0 d) = N.of_uint d.
Proof. induction k as [|k IH]; [reflexivity|exact IH]. Qed.

Lemma parse_digits_padded (k : nat) (n : Z) :
  parse_digits (zeros k ++ digits n) = Some (Z.abs_N n).
Proof.
  unfold parse_digits, digits. rewrite uint_of_string_zeros.
  assert (H : NilEmpty.uint_of_string
                (NilZero.string_of_uint (N.to_uint (Z.abs_N n)))
              = Some (N.to_uint (Z.abs_N n))).
  { unfold NilZero.string_of_uint.
    destruct (N.to_uint (Z.abs_N n)) eqn:E; try apply NilEmpty.usu.
    destruct (Z.abs_N n) as [|p]; [discriminate|].
    destruct (DecimalPos.Unsigned.to_uint_nonnil p E). }
  rewrite H. cbn [option_map]. rewrite of_uint_zeros.
  rewrite DecimalN.Unsigned.of_to. reflexivity.
Qed.

Lemma padded_not_signed (k : nat) (n : Z) (s : string) :
  (zeros k ++ digits n)%string <> String "-" s.
Proof.
  intros H. pose proof (parse_digits_padded k n) as Hp.
  rewrite H in Hp. unfold parse_digits in Hp.
  cbn [NilEmpty.uint_of_string] in Hp.
  destruct (NilEmpty.uint_of_string s); discriminate.
Qed.

Lemma padded_nonempty (k : nat) (n : Z) :
  (zeros k ++ digits n)%string <> EmptyString.
Proof.
  destruct k as [|k]; cbn [zeros append]; [|discriminate].
  unfold digits, NilZero.string_of_uint.
  destruct (N.to_uint (Z.abs_N n)); discriminate.
Qed.

(** Reading a formatted episode index back gives the index. *)
Lemma parse_format_06d (n : Z) : parse_int (format_06d n) = Some n.
Proof.
  unfold format_06d. destruct (n <? 0) eqn:E.
  - apply Z.ltb_lt in E. cbn [append parse_int].
    change (Ascii.eqb "-" "-") with true. cbv iota.
    rewrite parse_digits_padded. cbn [option_map]. f_equal.
    rewrite N2Z.inj_abs_N. lia.
  - apply Z.ltb_ge in E.
    pose proof (parse_digits_padded (6 - String.length (digits n)) n) as Hp.
    pose proof (padded_not_signed (6 - String.length (digits n)) n) as Hs.
    destruct (zeros (6 - String.length (digits n)) ++ digits n)%string
      as [|a s] eqn:Es.
    + destruct (padded_nonempty _ _ Es).
    + unfold parse_int. destruct (Ascii.eqb a "-") eqn:Ea.
      * apply Ascii.eqb_eq in Ea. subst a. destruct (Hs s eq_refl).
      * rewrite Hp. cbn [option_map]. f_equal.
        rewrite N2Z.inj_abs_N. lia.
Qed.

Lemma string_length_append (s t : string) :
  String.length (s ++ t) = (String.length s + String.length t)%nat.
Proof. induction s as [|a s IH]; cbn; [reflexivity|]. rewrite IH. reflexivity. Qed.

Lemma append_inv_tail (t : string) :
  forall s1 s2 : string, (s1 ++ t)%string = (s2 ++ t)%string -> s1 = s2.
Proof.
  induction s1 as [|a s1 IH]; intros [|b s2] H; cbn in H.
  - reflexivity.
  - apply (f_equal String.length) in H. cbn in H.
    rewrite string_length_append in H. lia.
  - apply (f_equal String.length) in H. cbn in H.
    rewrite string_length_append in H. lia.
  - injection H as -> H. f_equal. apply IH, H.
Qed.

(** X9. Episodes never share a GIF file: the path
    ['./data/dqn/gifs/ep{:06d}.gif'.format(ep)] determines [ep], for every
    integer [ep], whatever its sign and number of digits. *)
Theorem gif_path_injective (ep1 ep2 : Z) :
  gif_path ep1 = gif_path ep2 -> ep1 = ep2.
Proof.
  unfold gif_path. intros H.
  assert (H' : (format_06d ep1 ++ ".gif")%string
               = (format_06d ep2 ++ ".gif")%string).
  { cbn [append] in H. congruence. }
  apply append_inv_tail in H'.
  pose proof (parse_format_06d ep1) as P1. rewrite H' in P1.
  rewrite parse_format_06d in P1. congruence.
Qed.

Lemma gif_path_injective_witness : 10 = 10.
Proof.
  apply (gif_path_injective 10 10). reflexivity.
Defined.

Lemma of_uint_acc_bounds (d : Decimal.uint) :
  forall acc : positive,
    Z.pos acc * 10 ^ Z.of_nat (Decimal.nb_digits d)
      <= Z.pos (Pos.of_uint_acc d acc)
      < (Z.pos acc + 1) * 10 ^ Z.of_nat (Decimal.nb_digits d).
Proof.
  induction d as [|d IH|d IH|d IH|d IH|d IH|d IH|d IH|d IH|d IH|d IH];
    intros acc; cbn [Pos.of_uint_acc Decimal.nb_digits];
    [change (Z.of_nat 0) with 0; lia|..];
    rewrite Nat2Z.inj_succ, Z.pow_succ_r by lia;
    match goal with
    | |- context [Pos.of_uint_acc d ?a] => specialize (IH a)
    end;
    assert (0 < 10 ^ Z.of_nat (Decimal.nb_digits d))
      by (apply Z.pow_pos_nonneg; lia);
    nia.
Qed.

Lemma string_of_uint_length (d : Decimal.uint) :
  String.length (NilEmpty.string_of_uint d) = Decimal.nb_digits d.
Proof. induction d; cbn; congruence. Qed.

Lemma to_uint_head_nonzero (p : positive) (d : Decimal.uint) :
  Pos.to_uint p <> Decimal.D0 d.
Proof.
  intros E.
  pose proof (DecimalN.Unsigned.to_of (N.to_uint (N.pos p))) as H.
  rewrite DecimalN.Unsigned.of_to in H. cbn [N.to_uint] in H.
  rewrite E, DecimalFacts.unorm_D0 in H.
  destruct d as [|d|d|d|d|d|d|d|d|d|d].
  1: { apply (DecimalPos.Unsigned.to_uint_nonzero p). exact E. }
  all: match type of H with
       | _ = Decimal.unorm ?u =>
           pose proof (DecimalFacts.nb_digits_unorm u ltac:(discriminate))
             as Hn; rewrite <- H in Hn; cbn [Decimal.nb_digits] in Hn; lia
       end.
Qed.

(** The number of digits of a positive integer. *)
Lemma digits_length (n : Z) :
  0 < n ->
  10 ^ (Z.of_nat (String.length (digits n)) - 1) <= n
    < 10 ^ Z.of_nat (String.length (digits n)).
Proof.
  intros Hn. unfold digits. destruct n as [|p|p]; try lia.
  cbn [Z.abs_N Z.abs N.to_uint].
  pose proof (DecimalPos.Unsigned.of_to p) as Hof.
  pose proof (to_uint_head_nonzero p) as Hhd.
  pose proof (DecimalPos.Unsigned.to_uint_nonnil p) as Hnil.
  unfold NilZero.string_of_uint.
  destruct (Pos.to_uint p) as [|d|d|d|d|d|d|d|d|d|d] eqn:E;
    [destruct (Hnil eq_refl)|destruct (Hhd d eq_refl)|..];
    rewrite string_of_uint_length; cbn [Decimal.nb_digits];
    cbn [Pos.of_uint] in Hof; injection Hof as Hof;
    rewrite Nat2Z.inj_succ;
    replace (Z.succ (Z.of_nat (Decimal.nb_digits d)) - 1)
      with (Z.of_nat (Decimal.nb_digits d)) by lia;
    rewrite Z.pow_succ_r by lia;
    match type of Hof with
    | Pos.of_uint_acc d ?a = p =>
        pose proof (of_uint_acc_bounds d a) as Hb; rewrite Hof in Hb
    end;
    assert (0 < 10 ^ Z.of_nat (Decimal.nb_digits d))
      by (apply Z.pow_pos_nonneg; lia);
    nia.
Qed.

Lemma zeros_length (k : nat) : String.length (zeros k) = k.
Proof. induction k; cbn; congruence. Qed.

(** X10. The file name of an episode below 1,000,000 has exactly six digits;
    from episode 1,000,000 on (the script asks for 3,000,000 episodes) it
    has more, so the names no longer all have one width. *)
Theorem format_06d_width (ep : Z) :
  0 <= ep ->
  (ep < 1000000 -> String.length (format_06d ep) = 6%nat) /\
  (1000000 <= ep -> (6 < String.length (format_06d ep))%nat).
Proof.
  intros H0. unfold format_06d.
  rewrite (proj2 (Z.ltb_ge ep 0)) by lia.
  rewrite string_length_append, zeros_length.
  destruct (Z.eq_dec ep 0) as [->|Hne].
  - split; [reflexivity|lia].
  - pose proof (digits_length ep ltac:(lia)) as [Hlo Hhi].
    set (L := String.length (digits ep)) in *.
    split; intros Hep.
    + assert (HL : (L <= 6)%nat).
      { destruct (le_lt_dec L 6) as [|Hgt]; [assumption|exfalso].
        assert (10 ^ 6 <= 10 ^ (Z.of_nat L - 1))
          by (apply Z.pow_le_mono_r; lia).
        change (10 ^ 6) with 1000000 in *. lia. }
      lia.
    + assert (HL : (6 < L)%nat).
      { destruct (le_lt_dec L 6) as [Hle|]; [exfalso|assumption].
        assert (10 ^ Z.of_nat L <= 10 ^ 6)
          by (apply Z.pow_le_mono_r; lia).
        change (10 ^ 6) with 1000000 in *. lia. }
      lia.
Qed.

Lemma format_06d_width_witness :
  String.length (format_06d 120) = 6%nat.
Proof.
  apply (format_06d_width 120); lia.
Defined.

(** ** Evaluating the body of [epsilon] (lines 36-43) *)

Ltac run_python HM H1 :=
  repeat progress (cbn -[float_of_int Z.ltb Z.mul Z.sub]; rewrite ?HM, ?H1).

(** Calling the function of lines 36-43, statement by statement, gives what
    [epsilon] gives and leaves the module's names as they were. *)
Lemma call_epsilon (T : Z) (g : namespace) :
  call_function epsilon_def [VInt T] g =
  (match epsilon T with
   | Some x => Returned (Some (VFloat x))
   | None => Raised OverflowError
   end, g).
Proof.
  assert (HM : float_of_int 1000000 = Some 1000000%float)
    by (vm_compute; reflexivity).
  assert (H1 : float_of_int 1 = Some 1%float) by (vm_compute; reflexivity).
  unfold call_function, epsilon_def, epsilon, segment1, segment2, M, obind.
  run_python HM H1.
  destruct (T <? 1000000); run_python HM H1.
  - destruct (float_of_int T) as [t|]; run_python HM H1; reflexivity.
  - destruct (T <? 2 * 1000000); run_python HM H1; [|reflexivity].
    destruct (float_of_int (T - 1000000)) as [t|]; run_python HM H1;
      reflexivity.
Qed.

(** A body that reads a name of the module gives what that name holds, and
    one that declares a name global leaves its value in the module. *)
Example reading_global_depends_on_it :
  fst (call_function epsilon_reading_global [VInt 5] []) =
    Raised (NameError "M") /\
  fst (call_function epsilon_reading_global [VInt 5] [("M"%string, VInt 10)]) =
    Returned (Some (VFloat 0.55000000000000004)).
Proof. split; vm_compute; reflexivity. Qed.

Example writing_global_changes_it :
  snd (call_function epsilon_writing_global [VInt 5] []) =
    [("M"%string, VInt 1000000)].
Proof. vm_compute. reflexivity. Qed.

(** ** Facts about the training loop *)

Section LoopFacts.

Context {World Obs Act Reward Info Batch Policy Exn : Type}.
Variable lib : Library World Obs Act Reward Info Batch Policy Exn.

Local Abbreviation prog := (@prog World Obs Act Reward Batch Policy Exn).
Local Abbreviation event := (@event World Obs Act Reward Batch Policy Exn).
Local Abbreviation call := (@call Obs Act Reward Batch Policy).

(** The runs considered below are [episodes lib n] for every [n]; the
    script's loop is the one of [num_episodes] episodes. *)
Lemma training_loop_episodes :
  training_loop lib = episodes lib (Z.to_nat num_episodes).
Proof. reflexivity. Qed.

Lemma trace_bind {A B : Type} (p : prog A) (k : A -> prog B) (w : World) :
  trace_of (bind p k) w =
  trace_of p w ++
  match result_of p w with
  | inl _ => []
  | inr (a, w') => trace_of (k a) w'
  end.
Proof.
  unfold trace_of, result_of, bind.
  destruct (p w) as [tr [e|[a w']]]; simpl.
  - rewrite app_nil_r. reflexivity.
  - destruct (k a w'). reflexivity.
Qed.

Lemma result_bind {A B : Type} (p : prog A) (k : A -> prog B) (w : World) :
  result_of (bind p k) w =
  match result_of p w with
  | inl e => inl e
  | inr (a, w') => result_of (k a) w'
  end.
Proof.
  unfold result_of, bind.
  destruct (p w) as [tr [e|[a w']]]; simpl; [reflexivity|].
  destruct (k a w'). reflexivity.
Qed.

(** *** Properties of every recorded call *)

Lemma all_events_bind {A B : Type} (P : event -> Prop)
  (p : prog A) (k : A -> prog B) :
  all_events P p -> (forall a, all_events P (k a)) ->
  all_events P (bind p k).
Proof.
  intros Hp Hk w. rewrite trace_bind. apply Forall_app. split; [apply Hp|].
  destruct (result_of p w) as [e|[a w']]; [constructor|apply Hk].
Qed.

Lemma all_events_ret {A : Type} (P : event -> Prop) (a : A) :
  all_events P (ret a).
Proof. intros w. constructor. Qed.

Lemma all_events_read {A : Type} (P : event -> Prop) (f : World -> A) :
  all_events P (read f).
Proof. intros w. constructor. Qed.

Lemma all_events_write (P : event -> Prop) (f : World -> World) :
  all_events P (write f).
Proof. intros w. constructor. Qed.

Lemma all_events_eval_epsilon (P : event -> Prop) (T : Z) :
  all_events P (eval_epsilon lib T).
Proof.
  unfold eval_epsilon. destruct (epsilon T); intros w; constructor.
Qed.

Lemma all_events_invoke {A : Type} (P : event -> Prop) (c : call)
  (f : World -> Exn + A * World) :
  (forall w, P (Build_event c w (outcome (f w)))) ->
  all_events P (invoke c f).
Proof. intros H w. repeat constructor. apply H. Qed.

(** Walks through a piece of the script; [leaf] closes the blocks that
    need an argument of their own. *)
Ltac events_with leaf :=
  repeat first
    [ leaf
    | apply all_events_ret
    | apply all_events_read
    | apply all_events_write
    | apply all_events_eval_epsilon
    | apply all_events_invoke; intro; cbn; try easy
    | apply all_events_bind; [|intro]
    | match goal with
      | |- all_events _ (if ?b then _ else _) => destruct b
      | |- all_events _ (let '(_, _) := ?x in _) => destruct x
      end ].

Ltac events := events_with fail.

Lemma all_events_steps (P : event -> Prop) :
  (forall s, all_events P (train_step lib s)) ->
  forall n s, all_events P (steps lib n s).
Proof.
  intros H n. induction n as [|n IH]; intros s; cbn [steps].
  - apply all_events_ret.
  - apply all_events_bind; [apply H|]. intros [[|] s_next];
      [apply all_events_ret|apply IH].
Qed.

Lemma all_events_episodes (P : event -> Prop) :
  all_events P (episode lib) -> forall n, all_events P (episodes lib n).
Proof.
  intros H n. induction n as [|n IH]; cbn [episodes].
  - apply all_events_ret.
  - apply all_events_bind; [exact H|]. intros _. exact IH.
Qed.

Lemma count_calls_app (f : call -> bool) (tr1 tr2 : list event) :
  count_calls f (tr1 ++ tr2) = (count_calls f tr1 + count_calls f tr2)%nat.
Proof. unfold count_calls. rewrite filter_app, length_app. reflexivity. Qed.

Lemma count_calls_none (f : call -> bool) (tr : list event) :
  Forall (fun ev => f (ev_call ev) = false) tr -> count_calls f tr = 0%nat.
Proof.
  unfold count_calls. induction 1 as [|ev tr Hev _ IH]; simpl;
    [reflexivity|]. rewrite Hev. exact IH.
Qed.

(** Each recorded call carries what the library answered in the world it
    was made in. *)
Lemma recorded_faithfully (n : nat) :
  all_events (fun ev => ev_raised ev = raises lib (ev_call ev) (ev_world ev))
             (episodes lib n).
Proof.
  apply all_events_episodes. unfold episode. events.
  apply all_events_steps. intros s. events.
Qed.

(** *** Exceptions *)

Lemma propagating_ret {A : Type} (a : A) : propagating lib (ret a).
Proof. intros w. constructor. Qed.

Lemma propagating_read {A : Type} (f : World -> A) :
  propagating lib (read f).
Proof. intros w. constructor. Qed.

Lemma propagating_write (f : World -> World) : propagating lib (write f).
Proof. intros w. constructor. Qed.

Lemma propagating_invoke {A : Type} (c : call)
  (f : World -> Exn + A * World) : propagating lib (invoke c f).
Proof.
  intros w. unfold result_of, trace_of, invoke. simpl.
  destruct (f w) as [e|[a w']]; simpl.
  - left. exists [], (Build_event c w (Some e)). repeat split. constructor.
  - repeat constructor.
Qed.

Lemma propagating_eval_epsilon (T : Z) :
  propagating lib (eval_epsilon lib T).
Proof.
  unfold eval_epsilon. destruct (epsilon T); [apply propagating_ret|].
  intros w. right. split; [constructor|reflexivity].
Qed.

Lemma propagating_bind {A B : Type} (p : prog A) (k : A -> prog B) :
  propagating lib p -> (forall a, propagating lib (k a)) ->
  propagating lib (bind p k).
Proof.
  intros Hp Hk w. specialize (Hp w). rewrite result_bind, trace_bind.
  destruct (result_of p w) as [e|[a w']].
  - rewrite app_nil_r. exact Hp.
  - specialize (Hk a w'). destruct (result_of (k a) w') as [e|r].
    + destruct Hk as [(tr & ev & Htr & Hq & He)|[Hq He]].
      * left. exists (trace_of p w ++ tr), ev. rewrite Htr, app_assoc.
        repeat split; [apply Forall_app; split|]; assumption.
      * right. split; [apply Forall_app; split|]; assumption.
    + apply Forall_app; split; assumption.
Qed.

Ltac propagate :=
  repeat first
    [ apply propagating_ret
    | apply propagating_read
    | apply propagating_write
    | apply propagating_invoke
    | apply propagating_eval_epsilon
    | apply propagating_bind; [|intro]
    | match goal with
      | |- propagating _ (if ?b then _ else _) => destruct b
      | |- propagating _ (let '(_, _) := ?x in _) => destruct x
      end ].

Lemma propagating_steps (n : nat) :
  forall s, propagating lib (steps lib n s).
Proof.
  induction n as [|n IH]; intros s; cbn [steps]; propagate. apply IH.
Qed.

Lemma propagating_episodes (n : nat) : propagating lib (episodes lib n).
Proof.
  induction n as [|n IH]; cbn [episodes]; propagate.
  - apply propagating_steps.
  - exact IH.
Qed.

Lemma quiet_split (tr1 tr2 : list event) (ev : event) (e : Exn) :
  quiet (tr1 ++ ev :: tr2) -> ev_raised ev = Some e -> False.
Proof.
  intros Hq He. apply Forall_app in Hq as [_ Hq].
  inversion Hq; subst. congruence.
Qed.

Lemma raising_event_is_last (tr : list event) (ev0 ev : event) (e : Exn) :
  quiet tr -> ev_raised ev = Some e ->
  forall tr1 tr2, tr ++ [ev0] = tr1 ++ ev :: tr2 -> tr2 = [] /\ ev = ev0.
Proof.
  intros Hq He. induction Hq as [|a tr Ha Hq IH]; intros [|x tr1] tr2 Heq;
    simpl in Heq; injection Heq as Hhd Htl; subst.
  - split; reflexivity.
  - destruct tr1; discriminate.
  - congruence.
  - apply (IH _ _ Htl).
Qed.

(** C8. The loop handles no exception.  When a call into gym, keras_gym
    or [os] raises [e] during a run of any number of episodes (the
    recorded call is what the library answered, [raises]), no call is
    made after it and the run ends with [e]; and a run that ends with an
    exception ends with the one its last call raised, or with the overflow
    of [epsilon]. *)
Theorem errors_propagate (n : nat) (w : World) :
  (forall tr1 ev tr2 e,
      trace_of (episodes lib n) w = tr1 ++ ev :: tr2 ->
      raises lib (ev_call ev) (ev_world ev) = Some e ->
      tr2 = [] /\ result_of (episodes lib n) w = inl e) /\
  (forall e,
      result_of (episodes lib n) w = inl e ->
      (exists tr ev,
          trace_of (episodes lib n) w = tr ++ [ev] /\
          raises lib (ev_call ev) (ev_world ev) = Some e) \/
      e = overflow_error lib).
Proof.
  pose proof (propagating_episodes n w) as Hp.
  pose proof (recorded_faithfully n w) as Hrec.
  split.
  - intros tr1 ev tr2 e Htr He.
    assert (He' : ev_raised ev = Some e).
    { rewrite Htr in Hrec. apply Forall_app in Hrec as [_ Hrec].
      inversion Hrec; subst. congruence. }
    destruct (result_of (episodes lib n) w) as [e0|r].
    + destruct Hp as [(tr & ev0 & Htr0 & Hq & He0)|[Hq _]].
      * rewrite Htr0 in Htr.
        destruct (raising_event_is_last tr ev0 ev e Hq He' _ _ Htr)
          as [-> ->].
        split; congruence.
      * rewrite Htr in Hq. destruct (quiet_split _ _ _ _ Hq He').
    + rewrite Htr in Hp. destruct (quiet_split _ _ _ _ Hp He').
  - intros e He. rewrite He in Hp.
    destruct Hp as [(tr & ev & Htr & _ & Hev)|[_ ->]]; [left|right; reflexivity].
    exists tr, ev. split; [exact Htr|].
    rewrite Htr in Hrec. apply Forall_app in Hrec as [_ Hrec].
    inversion Hrec; subst. congruence.
Qed.

(** *** The exploration rate inside the loop *)

(** C5. For a non-negative step count [T], a call [epsilon(T)] returns a
    value [x] and raises nothing; calling the function of lines 36-43 with
    [T], whatever names the module holds, returns that [x] and leaves the
    module's names as they were (it writes no external state); any two
    calls with the same [T], made with any two states of the module,
    return the same (it reads none, and is deterministic); and evaluated
    inside the loop it makes no library call and leaves the world as it
    was. *)
Theorem epsilon_pure (T : Z) :
  0 <= T ->
  exists x,
    epsilon T = Some x /\
    (forall g, call_function epsilon_def [VInt T] g =
               (Returned (Some (VFloat x)), g)) /\
    (forall g1 g2, fst (call_function epsilon_def [VInt T] g1) =
                   fst (call_function epsilon_def [VInt T] g2)) /\
    (forall w, eval_epsilon lib T w = ([], inr (x, w))).
Proof.
  intros HT. exists (epsilon_value T).
  pose proof (epsilon_returns T HT) as H. split; [exact H|].
  split; [|split].
  - intros g. rewrite call_epsilon, H. reflexivity.
  - intros g1 g2. rewrite !call_epsilon. reflexivity.
  - intros w. unfold eval_epsilon. rewrite H. reflexivity.
Qed.

(** *** Target-model synchronisation (lines 74-75) *)

Lemma sync_guarded :
  all_events
    (fun ev => is_sync (ev_call ev) = true ->
               env_T lib (ev_world ev) mod target_model_sync_period = 0)
    (step_sync lib).
Proof.
  intros w. unfold step_sync, trace_of, bind, read, invoke, ret. cbn.
  destruct (env_T lib w mod target_model_sync_period =? 0) eqn:Hg; cbn.
  - destruct (q_sync_target_model lib w) as [e|[u w']]; cbn;
      repeat constructor; cbn; intros _; apply Z.eqb_eq, Hg.
  - constructor.
Qed.

Lemma no_sync_before (s : Obs) :
  all_events (fun ev => is_sync (ev_call ev) = false)
             (step_act_learn lib s).
Proof. events. Qed.

(** In a training step that reaches line 74 (lines 65-72 returned,
    leaving the world [w2]), [q.sync_target_model()] is called once when
    [env.T] is divisible by the sync period and not at all otherwise; and
    in a run of any number of episodes every such call is made in a world
    whose [env.T] is divisible by the period. *)
Lemma sync_count_in_step :
  (forall s w tr x w2,
      step_act_learn lib s w = (tr, inr (x, w2)) ->
      (env_T lib w2 mod target_model_sync_period = 0 ->
       count_calls is_sync (trace_of (train_step lib s) w) = 1%nat) /\
      (env_T lib w2 mod target_model_sync_period <> 0 ->
       count_calls is_sync (trace_of (train_step lib s) w) = 0%nat)) /\
  (forall n,
      all_events
        (fun ev => is_sync (ev_call ev) = true ->
                   env_T lib (ev_world ev) mod target_model_sync_period = 0)
        (episodes lib n)).
Proof.
  split.
  - intros s w tr x w2 Hrun.
    assert (Htr : count_calls is_sync tr = 0%nat).
    { apply count_calls_none. pose proof (no_sync_before s w) as H.
      unfold trace_of in H. rewrite Hrun in H. exact H. }
    unfold train_step at 1 2. unfold trace_of, bind. rewrite Hrun.
    unfold step_sync, bind, read, invoke, ret. cbn -[count_calls].
    destruct (env_T lib w2 mod target_model_sync_period =? 0) eqn:Hg.
    + apply Z.eqb_eq in Hg.
      split; [intros _|intros Hn; destruct (Hn Hg)].
      destruct (q_sync_target_model lib w2) as [e|[u w']];
        cbn -[count_calls]; rewrite count_calls_app, Htr; reflexivity.
    + apply Z.eqb_neq in Hg.
      split; [intros H0; destruct (Hg H0)|intros _].
      cbn -[count_calls]. rewrite count_calls_app, Htr. reflexivity.
  - apply all_events_episodes. unfold episode. events.
    apply all_events_steps. intros s. events_with ltac:(apply sync_guarded).
Qed.

(** *** Learning updates (lines 71-72) *)

Lemma sample_guarded :
  all_events
    (fun ev => is_sample (ev_call ev) = true ->
               env_T lib (ev_world ev) > buffer_warmup_period)
    (step_learn lib).
Proof.
  intros w. unfold step_learn, trace_of, bind, read, invoke, ret. cbn.
  destruct (env_T lib w >? buffer_warmup_period) eqn:Hg; cbn.
  - apply Z.gtb_lt in Hg.
    destruct (buffer_sample lib w) as [e|[b w']]; cbn.
    + repeat constructor. cbn. lia.
    + destruct (q_batch_update lib b w') as [e|[u w'']]; cbn;
        repeat constructor; cbn; intros; lia || discriminate.
  - constructor.
Qed.

Lemma update_guarded :
  (forall w b w', buffer_sample lib w = inr (b, w') ->
                  env_T lib w' = env_T lib w) ->
  all_events
    (fun ev => is_batch_update (ev_call ev) = true ->
               env_T lib (ev_world ev) > buffer_warmup_period)
    (step_learn lib).
Proof.
  intros Hframe w. unfold step_learn, trace_of, bind, read, invoke, ret. cbn.
  destruct (env_T lib w >? buffer_warmup_period) eqn:Hg; cbn.
  - apply Z.gtb_lt in Hg.
    destruct (buffer_sample lib w) as [e|[b w']] eqn:Hs; cbn.
    + repeat constructor. cbn. discriminate.
    + apply Hframe in Hs.
      destruct (q_batch_update lib b w') as [e|[u w'']]; cbn;
        repeat constructor; cbn; intros; lia || discriminate.
  - constructor.
Qed.

Lemma no_sample_in_act (s : Obs) :
  all_events (fun ev => is_sample (ev_call ev) = false) (step_act lib s).
Proof. events. Qed.

Lemma no_update_in_act (s : Obs) :
  all_events (fun ev => is_batch_update (ev_call ev) = false)
             (step_act lib s).
Proof. events. Qed.

Ltac count_learning Hs Hu :=
  split; intros; try discriminate;
  rewrite ?count_calls_app, ?Hs, ?Hu; reflexivity.

(** In a training step that reaches line 71 (lines 65-69 returned,
    leaving the world [w1]): when [env.T > 50000] the update statement
    runs, [buffer.sample()] is called once and, when it returns,
    [q.batch_update] is called once; when [env.T <= 50000] neither is
    called.  In a run of any number of episodes every [buffer.sample()]
    call is made in a world with [env.T > 50000], and so is every
    [q.batch_update] call when sampling leaves [env.T] alone. *)
Lemma learning_count_in_step :
  (forall s w tr x w1,
      step_act lib s w = (tr, inr (x, w1)) ->
      (env_T lib w1 > buffer_warmup_period ->
       count_calls is_sample (trace_of (train_step lib s) w) = 1%nat /\
       forall b w',
         buffer_sample lib w1 = inr (b, w') ->
         count_calls is_batch_update (trace_of (train_step lib s) w) = 1%nat) /\
      (env_T lib w1 <= buffer_warmup_period ->
       count_calls is_sample (trace_of (train_step lib s) w) = 0%nat /\
       count_calls is_batch_update (trace_of (train_step lib s) w) = 0%nat)) /\
  (forall n,
      all_events
        (fun ev => is_sample (ev_call ev) = true ->
                   env_T lib (ev_world ev) > buffer_warmup_period)
        (episodes lib n)) /\
  ((forall w b w', buffer_sample lib w = inr (b, w') ->
                   env_T lib w' = env_T lib w) ->
   forall n,
     all_events
       (fun ev => is_batch_update (ev_call ev) = true ->
                  env_T lib (ev_world ev) > buffer_warmup_period)
       (episodes lib n)).
Proof.
  split; [|split].
  - intros s w tr x w1 Hrun.
    assert (Hs : count_calls is_sample tr = 0%nat).
    { apply count_calls_none. pose proof (no_sample_in_act s w) as H.
      unfold trace_of in H. rewrite Hrun in H. exact H. }
    assert (Hu : count_calls is_batch_update tr = 0%nat).
    { apply count_calls_none. pose proof (no_update_in_act s w) as H.
      unfold trace_of in H. rewrite Hrun in H. exact H. }
    unfold train_step, step_act_learn, trace_of, bind. rewrite Hrun.
    unfold step_learn, step_sync, bind, read, invoke, ret.
    cbn -[count_calls].
    destruct (env_T lib w1 >? buffer_warmup_period) eqn:Hg.
    + apply Z.gtb_lt in Hg. split; [intros _|intros; lia].
      destruct (buffer_sample lib w1) as [e|[b w']];
        cbn -[count_calls]; [count_learning Hs Hu|].
      destruct (q_batch_update lib b w') as [e|[u w'']];
        cbn -[count_calls]; [count_learning Hs Hu|].
      destruct (env_T lib w'' mod target_model_sync_period =? 0);
        [destruct (q_sync_target_model lib w'') as [e|[u' w3]]|];
        cbn -[count_calls]; count_learning Hs Hu.
    + rewrite Z.gtb_ltb in Hg. apply Z.ltb_ge in Hg.
      split; [intros; lia|intros _].
      destruct (env_T lib w1 mod target_model_sync_period =? 0);
        [destruct (q_sync_target_model lib w1) as [e|[u' w3]]|];
        cbn -[count_calls]; count_learning Hs Hu.
  - intros n. apply all_events_episodes. unfold episode. events.
    apply all_events_steps. intros s.
    events_with ltac:(apply sample_guarded).
  - intros Hframe n. apply all_events_episodes. unfold episode. events.
    apply all_events_steps. intros s.
    events_with ltac:(apply (update_guarded Hframe)).
Qed.

(** *** GIF generation (lines 54-60) *)

Example gif_path_examples :
  gif_path 0 = "./data/dqn/gifs/ep000000.gif"%string /\
  gif_path 120 = "./data/dqn/gifs/ep000120.gif"%string /\
  gif_path 2999990 = "./data/dqn/gifs/ep2999990.gif"%string.
Proof. repeat split. Qed.






(** *** The exploration rate the policy acts with (lines 65-66) *)

Lemma on_schedule_step_act (s : Obs) : all_events (on_schedule lib) (step_act lib s).
Proof.
  intros w. unfold step_act, eval_epsilon, trace_of, bind, read, write,
    invoke, ret, raise. cbn.
  destruct (epsilon (env_T lib w)) as [x|] eqn:Hx; cbn; [|constructor].
  assert (Hcall : on_schedule lib
                    (Build_event (PolicyCall s)
                       (policy_assign_epsilon lib x w)
                       (outcome (policy_call lib s
                                   (policy_assign_epsilon lib x w))))).
  { intros _. exists w, x. repeat split; try assumption;
      apply (epsilon_is_probability _ _ H Hx). }
  destruct (policy_call lib s (policy_assign_epsilon lib x w))
    as [e|[a w1]]; cbn in *; [repeat constructor; exact Hcall|].
  destruct (env_step lib a w1) as [e|[[[[s_next r] done] info] w2]]; cbn;
    [|destruct (buffer_add lib s a r done (env_ep lib w2) w2)
        as [e|[u w3]]; cbn];
    repeat (constructor; [first [exact Hcall|intro; discriminate]|]);
    constructor.
Qed.

(** X1. Every [policy(s)] call of a run is made in the world that the
    assignment [policy.epsilon = epsilon(env.T)] has just produced, so no
    rate set elsewhere (the 0.01 of [generate_gif]) is acted on; and for a
    non-negative [env.T] the assigned rate lies in [0.01, 1.0]. *)
Theorem policy_acts_on_schedule (n : nat) :
  all_events (on_schedule lib) (episodes lib n).
Proof.
  apply all_events_episodes. unfold episode. events.
  apply all_events_steps. intros s.
  events_with ltac:(apply on_schedule_step_act).
Qed.

(** *** Calls and the calls before them *)

Lemma local_events_silent {A : Type} (Q : list event -> event -> Prop)
  (p : prog A) :
  (forall w, trace_of p w = []) -> local_events Q p.
Proof.
  intros H w tr1 ev tr2 Htr. rewrite H in Htr. destruct tr1; discriminate.
Qed.

Lemma local_events_eval_epsilon (Q : list event -> event -> Prop) (T : Z) :
  local_events Q (eval_epsilon lib T).
Proof.
  apply local_events_silent. intros w. unfold eval_epsilon.
  destruct (epsilon T); reflexivity.
Qed.

Lemma local_events_invoke {A : Type} (Q : list event -> event -> Prop)
  (c : call) (f : World -> Exn + A * World) :
  (forall w, Q [] (Build_event c w (outcome (f w)))) ->
  local_events Q (invoke c f).
Proof.
  intros H w [|x tr1] ev tr2 Htr; cbn in Htr.
  - injection Htr as <- _. apply H.
  - injection Htr as _ Htr. destruct tr1; discriminate.
Qed.

Lemma local_events_bind {A B : Type} (Q : list event -> event -> Prop)
  (p : prog A) (k : A -> prog B) :
  extensible Q ->
  local_events Q p -> (forall a, local_events Q (k a)) ->
  local_events Q (bind p k).
Proof.
  intros Hext Hp Hk w tr1 ev tr2 Htr. rewrite trace_bind in Htr.
  apply app_eq_app in Htr as [l [[H1 H2]|[H1 H2]]].
  - destruct l as [|x l]; cbn in H2.
    + rewrite app_nil_r in H1. subst tr1.
      destruct (result_of p w) as [e|[a w']]; [discriminate|].
      rewrite <- (app_nil_r (trace_of p w)). apply Hext.
      apply (Hk a w' [] ev tr2). symmetry. exact H2.
    + injection H2 as <- _. apply (Hp w tr1 ev l H1).
  - subst tr1. apply Hext.
    destruct (result_of p w) as [e|[a w']];
      [destruct l; discriminate|].
    apply (Hk a w' l ev tr2 H2).
Qed.

Ltac locals_with Hext leaf :=
  repeat first
    [ leaf
    | apply local_events_silent; intro; reflexivity
    | apply local_events_eval_epsilon
    | apply local_events_invoke; intro; cbn; try easy
    | apply (local_events_bind _ _ _ Hext); [|intro]
    | match goal with
      | |- local_events _ (if ?b then _ else _) => destruct b
      | |- local_events _ (let '(_, _) := ?x in _) => destruct x
      end ].

Lemma local_events_steps (Q : list event -> event -> Prop) :
  extensible Q ->
  (forall s, local_events Q (train_step lib s)) ->
  forall n s, local_events Q (steps lib n s).
Proof.
  intros Hext H n. induction n as [|n IH]; intros s; cbn [steps].
  - apply local_events_silent. reflexivity.
  - apply (local_events_bind _ _ _ Hext); [apply H|]. intros [[|] s_next];
      [apply local_events_silent; reflexivity|apply IH].
Qed.

Lemma local_events_episodes (Q : list event -> event -> Prop) :
  extensible Q ->
  local_events Q (episode lib) -> forall n, local_events Q (episodes lib n).
Proof.
  intros Hext H n. induction n as [|n IH]; cbn [episodes].
  - apply local_events_silent. reflexivity.
  - apply (local_events_bind _ _ _ Hext); [exact H|]. intros _. exact IH.
Qed.

(** *** What the replay buffer is given (lines 66-69) *)

Lemma stores_what_happened_extensible :
  extensible (stores_what_happened lib).
Proof.
  intros pre tr1 ev H s a r done ep Hc.
  destruct (H s a r done ep Hc) as (tr0 & evp & eve & s' & info & -> & Hrest).
  exists (pre ++ tr0), evp, eve, s', info. rewrite app_assoc.
  split; [reflexivity|exact Hrest].
Qed.

Lemma stores_what_happened_step_act (s : Obs) :
  local_events (stores_what_happened lib) (step_act lib s).
Proof.
  intros w tr1 ev tr2. unfold step_act, eval_epsilon, trace_of, bind, read,
    write, invoke, ret, raise. cbn.
  destruct (epsilon (env_T lib w)) as [x|]; cbn;
    [|intros H; destruct tr1; discriminate].
  destruct (policy_call lib s (policy_assign_epsilon lib x w))
    as [e|[a w1]] eqn:Hp; cbn;
    [|destruct (env_step lib a w1)
        as [e|[[[[s_next r] done] info] w2]] eqn:Hs; cbn;
      [|destruct (buffer_add lib s a r done (env_ep lib w2) w2)
          as [e|[u w3]]; cbn]];
    intros Heq s0 a0 r0 d0 ep0 Hc;
    destruct tr1 as [|e1 [|e2 [|e3 tr1]]]; cbn in Heq;
    inversion Heq; subst; clear Heq; cbn in Hc; try discriminate;
    try match goal with
        | H : [] = ?l ++ _ :: _ |- _ => destruct l; discriminate H
        end;
    injection Hc as <- <- <- <- <-;
    (eexists [], _, _, s_next, info; cbn;
     repeat split; [exact Hp|exact Hs]).
Qed.

(** X2. In a run of any number of episodes, every [buffer.add(s, a, r, done,
    ep)] call stores the transition that just happened: the two calls
    before it are [policy(s)], which returned the action [a], and
    [env.step(a)], which returned the reward [r] and the flag [done]; [ep]
    is [env.ep] as [env.step] left it. *)
Theorem buffer_stores_what_happened (n : nat) (w : World)
  (tr1 tr2 : list event) (ev : event) :
  trace_of (episodes lib n) w = tr1 ++ ev :: tr2 ->
  stores_what_happened lib tr1 ev.
Proof.
  revert w tr1 ev tr2. change (local_events (stores_what_happened lib) (episodes lib n)).
  pose proof stores_what_happened_extensible as Hext.
  apply (local_events_episodes _ Hext). unfold episode.
  locals_with Hext fail.
  apply (local_events_steps _ Hext). intros s.
  locals_with Hext ltac:(apply stores_what_happened_step_act).
Qed.

(** *** The state the policy acts on (lines 62-80) *)

Lemma last_obs_app (cur : option Obs) (tr1 tr2 : list event) :
  last_obs lib cur (tr1 ++ tr2) = last_obs lib (last_obs lib cur tr1) tr2.
Proof. apply fold_left_app. Qed.

Lemma acts_on_last_obs_app (tr1 tr2 : list event) :
  forall cur,
    acts_on_last_obs lib cur tr1 ->
    acts_on_last_obs lib (last_obs lib cur tr1) tr2 ->
    acts_on_last_obs lib cur (tr1 ++ tr2).
Proof.
  induction tr1 as [|ev tr1 IH]; intros cur H1 H2; cbn in *; [exact H2|].
  destruct H1 as [Hev H1]. split; [exact Hev|]. apply IH; assumption.
Qed.

Lemma acts_on_last_obs_no_policy (tr : list event) :
  Forall (fun ev => is_policy_call (ev_call ev) = false) tr ->
  forall cur, acts_on_last_obs lib cur tr.
Proof.
  induction 1 as [|ev tr Hev _ IH]; intros cur; cbn; [exact I|].
  split; [|apply IH]. intros s Hs. rewrite Hs in Hev. discriminate.
Qed.

Lemma no_policy_call_in_make_gif :
  all_events (fun ev => is_policy_call (ev_call ev) = false) (make_gif lib).
Proof. events. Qed.

Lemma last_obs_no_env (tr : list event) :
  Forall (fun ev => is_reset (ev_call ev) = false /\
                    is_env_step (ev_call ev) = false) tr ->
  forall cur, last_obs lib cur tr = cur.
Proof.
  unfold last_obs. induction 1 as [|ev tr [H1 H2] _ IH]; intros cur; cbn;
    [reflexivity|]. rewrite <- (IH cur) at 2. f_equal.
  unfold next_obs. destruct (ev_call ev); try reflexivity; discriminate.
Qed.

Lemma then_ret_result {A B : Type} (q : prog A) (b y : B) (w w' : World) :
  result_of (bind q (fun _ => ret b)) w = inr (y, w') -> y = b.
Proof.
  rewrite result_bind. destruct (result_of q w) as [e|[a w1]];
    [discriminate|]. cbn. congruence.
Qed.

Lemma step_act_acts (s : Obs) (w : World) :
  acts_on_last_obs lib (Some s) (trace_of (step_act lib s) w) /\
  forall done s_next w',
    result_of (step_act lib s) w = inr ((done, s_next), w') ->
    last_obs lib (Some s) (trace_of (step_act lib s) w) =
    if done then None else Some s_next.
Proof.
  unfold step_act, eval_epsilon, trace_of, result_of, bind, read, write,
    invoke, ret, raise. cbn.
  destruct (epsilon (env_T lib w)) as [x|]; cbn;
    [|split; [exact I|intros; discriminate]].
  destruct (policy_call lib s (policy_assign_epsilon lib x w))
    as [e|[a w1]]; cbn;
    [|destruct (env_step lib a w1)
        as [e|[[[[s1 r] d] info] w2]] eqn:Hs; cbn;
      [|destruct (buffer_add lib s a r d (env_ep lib w2) w2)
          as [e|[u w3]]; cbn]];
    (split;
     [ repeat split; try (intros; discriminate);
       intros ? [= ->]; reflexivity
     | try (intros; discriminate); intros done s_next w' [= <- <- <-];
       unfold last_obs; cbn; rewrite Hs; destruct d; reflexivity ]).
Qed.

Lemma after_act_no_policy_no_env (x : bool * Obs) :
  all_events (fun ev => is_policy_call (ev_call ev) = false /\
                        is_reset (ev_call ev) = false /\
                        is_env_step (ev_call ev) = false)
             (bind (step_learn lib) (fun _ => ret x)) /\
  all_events (fun ev => is_policy_call (ev_call ev) = false /\
                        is_reset (ev_call ev) = false /\
                        is_env_step (ev_call ev) = false)
             (bind (step_sync lib) (fun _ => ret x)).
Proof. split; events. Qed.

Lemma train_step_acts (s : Obs) (w : World) :
  acts_on_last_obs lib (Some s) (trace_of (train_step lib s) w) /\
  forall done s_next w',
    result_of (train_step lib s) w = inr ((done, s_next), w') ->
    last_obs lib (Some s) (trace_of (train_step lib s) w) =
    if done then None else Some s_next.
Proof.
  destruct (step_act_acts s w) as [Hact Hlast].
  assert (Hquiet : forall tr : list event,
             Forall (fun ev => is_policy_call (ev_call ev) = false /\
                               is_reset (ev_call ev) = false /\
                               is_env_step (ev_call ev) = false) tr ->
             (forall cur, acts_on_last_obs lib cur tr) /\
             (forall cur, last_obs lib cur tr = cur)).
  { intros tr H. split.
    - apply acts_on_last_obs_no_policy. revert H. apply Forall_impl. tauto.
    - apply last_obs_no_env. revert H. apply Forall_impl. tauto. }
  unfold train_step, step_act_learn.
  rewrite !trace_bind, !result_bind.
  destruct (result_of (step_act lib s) w) as [e|[x w1]] eqn:Hres.
  - rewrite !app_nil_r. split; [exact Hact|intros; discriminate].
  - destruct (Hquiet _ (proj1 (after_act_no_policy_no_env x) w1))
      as [HactL HlastL].
    destruct (result_of (bind (step_learn lib) (fun _ => ret x)) w1)
      as [e|[y w2]] eqn:HresL.
    + rewrite app_nil_r. split; [|intros; discriminate].
      apply acts_on_last_obs_app; [exact Hact|apply HactL].
    + apply then_ret_result in HresL as ->.
      destruct (Hquiet _ (proj2 (after_act_no_policy_no_env x) w2))
        as [HactS HlastS].
      split.
      * apply acts_on_last_obs_app; [|apply HactS].
        apply acts_on_last_obs_app; [exact Hact|apply HactL].
      * intros done s_next w' Hr. apply then_ret_result in Hr. subst x.
        rewrite !last_obs_app, HlastS, HlastL.
        apply (Hlast done s_next w1 eq_refl).
Qed.

Lemma steps_act (n : nat) :
  forall s w, acts_on_last_obs lib (Some s) (trace_of (steps lib n s) w).
Proof.
  induction n as [|n IH]; intros s w; cbn [steps]; [exact I|].
  rewrite trace_bind. destruct (train_step_acts s w) as [Hact Hlast].
  apply acts_on_last_obs_app; [exact Hact|].
  destruct (result_of (train_step lib s) w) as [e|[[done s_next] w']];
    [exact I|].
  rewrite (Hlast done s_next w' eq_refl). destruct done; [exact I|apply IH].
Qed.

Lemma episode_acts (w : World) (cur : option Obs) :
  acts_on_last_obs lib cur (trace_of (episode lib) w).
Proof.
  unfold episode. rewrite trace_bind.
  apply acts_on_last_obs_app;
    [apply acts_on_last_obs_no_policy, no_policy_call_in_make_gif|].
  destruct (result_of (make_gif lib) w) as [e|[u w1]]; [exact I|].
  rewrite trace_bind.
  change (trace_of (invoke EnvReset (env_reset lib)) w1)
    with [Build_event (@EnvReset Obs Act Reward Batch Policy) w1
            (outcome (env_reset lib w1))].
  change (result_of (invoke EnvReset (env_reset lib)) w1)
    with (env_reset lib w1).
  cbn [app acts_on_last_obs]. split; [discriminate|].
  unfold next_obs. cbn [ev_call ev_world].
  destruct (env_reset lib w1) as [e|[s w2]]; [exact I|apply steps_act].
Qed.

Lemma episodes_act (n : nat) :
  forall w cur, acts_on_last_obs lib cur (trace_of (episodes lib n) w).
Proof.
  induction n as [|n IH]; intros w cur; cbn [episodes]; [exact I|].
  rewrite trace_bind. apply acts_on_last_obs_app; [apply episode_acts|].
  destruct (result_of (episode lib) w) as [e|[u w']]; [exact I|apply IH].
Qed.

Lemma acts_on_last_obs_split (tr1 tr2 : list event) (ev : event) (s : Obs) :
  forall cur,
    acts_on_last_obs lib cur (tr1 ++ ev :: tr2) ->
    ev_call ev = PolicyCall s ->
    last_obs lib cur tr1 = Some s.
Proof.
  induction tr1 as [|x tr1 IH]; intros cur H Hs; cbn in H.
  - destruct H as [H _]. apply (H s Hs).
  - destruct H as [_ H]. apply (IH _ H Hs).
Qed.

(** *** The step budget of an episode (line 64) *)

Lemma steps_since_reset_app (k : nat) (tr1 tr2 : list event) :
  steps_since_reset k (tr1 ++ tr2) =
  steps_since_reset (steps_since_reset k tr1) tr2.
Proof. apply fold_left_app. Qed.

Lemma acts_within_app (budget : nat) (tr1 tr2 : list event) :
  forall k,
    acts_within budget k tr1 ->
    acts_within budget (steps_since_reset k tr1) tr2 ->
    acts_within budget k (tr1 ++ tr2).
Proof.
  induction tr1 as [|ev tr1 IH]; intros k H1 H2; cbn in *; [exact H2|].
  destruct H1 as [Hev H1]. split; [exact Hev|]. apply IH; assumption.
Qed.

Lemma acts_within_no_policy (budget : nat) (tr : list event) :
  Forall (fun ev => is_policy_call (ev_call ev) = false) tr ->
  forall k, acts_within budget k tr.
Proof.
  induction 1 as [|ev tr Hev _ IH]; intros k; cbn; [exact I|].
  split; [|apply IH]. intros Hs. rewrite Hs in Hev. discriminate.
Qed.

Lemma steps_since_reset_no_env (tr : list event) :
  Forall (fun ev => is_reset (ev_call ev) = false /\
                    is_env_step (ev_call ev) = false) tr ->
  forall k, steps_since_reset k tr = k.
Proof.
  unfold steps_since_reset.
  induction 1 as [|ev tr [H1 H2] _ IH]; intros k; cbn; [reflexivity|].
  rewrite <- (IH k) at 2. f_equal.
  unfold count_step. destruct (ev_call ev); try reflexivity; discriminate.
Qed.

Lemma step_act_within (budget k : nat) (s : Obs) (w : World) :
  (k < budget)%nat ->
  acts_within budget k (trace_of (step_act lib s) w) /\
  forall x w',
    result_of (step_act lib s) w = inr (x, w') ->
    steps_since_reset k (trace_of (step_act lib s) w) = S k.
Proof.
  intros Hk.
  unfold step_act, eval_epsilon, trace_of, result_of, bind, read, write,
    invoke, ret, raise. cbn.
  destruct (epsilon (env_T lib w)) as [x|]; cbn;
    [|split; [exact I|intros; discriminate]].
  destruct (policy_call lib s (policy_assign_epsilon lib x w))
    as [e|[a w1]]; cbn;
    [|destruct (env_step lib a w1)
        as [e|[[[[s1 r] d] info] w2]]; cbn;
      [|destruct (buffer_add lib s a r d (env_ep lib w2) w2)
          as [e|[u w3]]; cbn]];
    (split;
     [ repeat split; try (intros; discriminate); intros _; exact Hk
     | try (intros; discriminate); intros; reflexivity ]).
Qed.

Lemma train_step_within (budget k : nat) (s : Obs) (w : World) :
  (k < budget)%nat ->
  acts_within budget k (trace_of (train_step lib s) w) /\
  forall x w',
    result_of (train_step lib s) w = inr (x, w') ->
    steps_since_reset k (trace_of (train_step lib s) w) = S k.
Proof.
  intros Hk. destruct (step_act_within budget k s w Hk) as [Hact Hcount].
  assert (Hquiet : forall tr : list event,
             Forall (fun ev => is_policy_call (ev_call ev) = false /\
                               is_reset (ev_call ev) = false /\
                               is_env_step (ev_call ev) = false) tr ->
             (forall j, acts_within budget j tr) /\
             (forall j, steps_since_reset j tr = j)).
  { intros tr H. split.
    - apply acts_within_no_policy. revert H. apply Forall_impl. tauto.
    - apply steps_since_reset_no_env. revert H. apply Forall_impl. tauto. }
  unfold train_step, step_act_learn.
  rewrite !trace_bind, !result_bind.
  destruct (result_of (step_act lib s) w) as [e|[x w1]] eqn:Hres.
  - rewrite !app_nil_r. split; [exact Hact|intros; discriminate].
  - destruct (Hquiet _ (proj1 (after_act_no_policy_no_env x) w1))
      as [HactL HcountL].
    destruct (result_of (bind (step_learn lib) (fun _ => ret x)) w1)
      as [e|[y w2]] eqn:HresL.
    + rewrite app_nil_r. split; [|intros; discriminate].
      apply acts_within_app; [exact Hact|apply HactL].
    + apply then_ret_result in HresL as ->.
      destruct (Hquiet _ (proj2 (after_act_no_policy_no_env x) w2))
        as [HactS HcountS].
      split.
      * apply acts_within_app; [|apply HactS].
        apply acts_within_app; [exact Hact|apply HactL].
      * intros y w' _.
        rewrite !steps_since_reset_app, HcountS, HcountL.
        apply (Hcount x w1 eq_refl).
Qed.

Lemma steps_within (budget n : nat) :
  forall k s w,
    (k + n <= budget)%nat ->
    acts_within budget k (trace_of (steps lib n s) w).
Proof.
  induction n as [|n IH]; intros k s w Hk; cbn [steps]; [exact I|].
  rewrite trace_bind.
  destruct (train_step_within budget k s w ltac:(lia)) as [Hact Hcount].
  apply acts_within_app; [exact Hact|].
  destruct (result_of (train_step lib s) w) as [e|[[done s_next] w']];
    [exact I|].
  rewrite (Hcount _ w' eq_refl). destruct done; [exact I|apply IH; lia].
Qed.

Lemma episode_within (w : World) (k : nat) :
  acts_within (Z.to_nat (num_steps lib)) k (trace_of (episode lib) w).
Proof.
  unfold episode. rewrite trace_bind.
  apply acts_within_app;
    [apply acts_within_no_policy, no_policy_call_in_make_gif|].
  destruct (result_of (make_gif lib) w) as [e|[u w1]]; [exact I|].
  rewrite trace_bind.
  change (trace_of (invoke EnvReset (env_reset lib)) w1)
    with [Build_event (@EnvReset Obs Act Reward Batch Policy) w1
            (outcome (env_reset lib w1))].
  change (result_of (invoke EnvReset (env_reset lib)) w1)
    with (env_reset lib w1).
  cbn [app acts_within]. split; [discriminate|].
  unfold count_step. cbn [ev_call].
  destruct (env_reset lib w1) as [e|[s w2]]; [exact I|].
  apply steps_within. apply Nat.le_refl.
Qed.

Lemma episodes_within (n : nat) :
  forall w k,
    acts_within (Z.to_nat (num_steps lib)) k (trace_of (episodes lib n) w).
Proof.
  induction n as [|n IH]; intros w k; cbn [episodes]; [exact I|].
  rewrite trace_bind. apply acts_within_app; [apply episode_within|].
  destruct (result_of (episode lib) w) as [e|[u w']]; [exact I|apply IH].
Qed.

Lemma acts_within_split (budget : nat) (tr1 tr2 : list event) (ev : event) :
  forall k,
    acts_within budget k (tr1 ++ ev :: tr2) ->
    is_policy_call (ev_call ev) = true ->
    (steps_since_reset k tr1 < budget)%nat.
Proof.
  induction tr1 as [|x tr1 IH]; intros k H Hs; cbn in H.
  - destruct H as [H _]. apply (H Hs).
  - destruct H as [_ H]. apply (IH _ H Hs).
Qed.

(** X3. In a run of any number of episodes, every [policy(s)] call acts on the
    state the environment handed out last: reading the calls before it,
    [s] is what the latest [env.reset()] returned, or the [s_next] of the
    latest [env.step] call, which had not reported [done]; and fewer than
    [num_steps] calls of [env.step] were made since that [env.reset()].
    So once a step reports [done], or the step budget of the episode is
    used up, the loop resets the environment before the policy acts
    again. *)
Theorem policy_acts_on_last_obs (n : nat) (w : World)
  (tr1 tr2 : list event) (ev : event) (s : Obs) :
  trace_of (episodes lib n) w = tr1 ++ ev :: tr2 ->
  ev_call ev = PolicyCall s ->
  last_obs lib None tr1 = Some s /\
  (steps_since_reset 0 tr1 < Z.to_nat (num_steps lib))%nat.
Proof.
  intros Htr Hs. split.
  - apply (acts_on_last_obs_split tr1 tr2 ev s None); [|exact Hs].
    rewrite <- Htr. apply episodes_act.
  - apply (acts_within_split _ tr1 tr2 ev 0).
    + rewrite <- Htr. apply episodes_within.
    + rewrite Hs. reflexivity.
Qed.

(** *** How many times the environment is reset and stepped *)

Lemma count_calls_all_events {A : Type} (f : call -> bool) (p : prog A) :
  all_events (fun ev => f (ev_call ev) = false) p ->
  forall w, count_calls f (trace_of p w) = 0%nat.
Proof. intros H w. apply count_calls_none, H. Qed.

Lemma train_step_counts (s : Obs) (w : World) :
  count_calls is_reset (trace_of (train_step lib s) w) = 0%nat /\
  (count_calls is_env_step (trace_of (train_step lib s) w) <= 1)%nat.
Proof.
  split.
  - apply count_calls_all_events. events.
  - unfold train_step, step_act_learn. rewrite !trace_bind, !result_bind.
    rewrite !count_calls_app.
    assert (H1 : (count_calls is_env_step (trace_of (step_act lib s) w) <= 1)%nat).
    { unfold step_act, eval_epsilon, trace_of, bind, read, write, invoke,
        ret, raise. cbn.
      destruct (epsilon (env_T lib w)) as [x|]; cbn; [|lia].
      destruct (policy_call lib s (policy_assign_epsilon lib x w))
        as [e|[a w1]]; cbn; [lia|].
      destruct (env_step lib a w1) as [e|[[[[s1 r] d] info] w2]]; cbn;
        [lia|].
      destruct (buffer_add lib s a r d (env_ep lib w2) w2) as [e|[u w3]];
        cbn; lia. }
    assert (H2 : forall (x : bool * Obs) w1,
               count_calls is_env_step
                 (trace_of (bind (step_learn lib) (fun _ => ret x)) w1) = 0%nat).
    { intros x. apply count_calls_all_events. events. }
    assert (H3 : forall (x : bool * Obs) w1,
               count_calls is_env_step
                 (trace_of (bind (step_sync lib) (fun _ => ret x)) w1) = 0%nat).
    { intros x. apply count_calls_all_events. events. }
    destruct (result_of (step_act lib s) w) as [e|[x w1]]; cbn [app].
    + change (count_calls is_env_step []) with 0%nat. lia.
    + rewrite H2.
      destruct (result_of (bind (step_learn lib) (fun _ => ret x)) w1)
        as [e|[y w2]]; [|rewrite H3];
        change (count_calls is_env_step []) with 0%nat; lia.
Qed.

Lemma steps_counts (n : nat) :
  forall s w,
    count_calls is_reset (trace_of (steps lib n s) w) = 0%nat /\
    (count_calls is_env_step (trace_of (steps lib n s) w) <= n)%nat.
Proof.
  induction n as [|n IH]; intros s w; cbn [steps].
  - split; [reflexivity|apply Nat.le_refl].
  - rewrite trace_bind, !count_calls_app.
    destruct (train_step_counts s w) as [-> H1].
    destruct (result_of (train_step lib s) w) as [e|[[[|] s_next] w']].
    + change (count_calls is_reset []) with 0%nat.
      change (count_calls is_env_step []) with 0%nat. lia.
    + change (count_calls is_reset (trace_of (ret tt) w')) with 0%nat.
      change (count_calls is_env_step (trace_of (ret tt) w')) with 0%nat. lia.
    + destruct (IH s_next w') as [-> H2]. lia.
Qed.

Lemma episode_counts (w : World) :
  (count_calls is_reset (trace_of (episode lib) w) <= 1)%nat /\
  (forall r, result_of (episode lib) w = inr r ->
             count_calls is_reset (trace_of (episode lib) w) = 1%nat) /\
  (count_calls is_env_step (trace_of (episode lib) w)
   <= Z.to_nat (num_steps lib))%nat.
Proof.
  unfold episode. rewrite !trace_bind, !result_bind, !count_calls_app.
  rewrite !(count_calls_all_events _ (make_gif lib)) by events.
  destruct (result_of (make_gif lib) w) as [e|[u w1]].
  - change (count_calls is_reset []) with 0%nat.
    change (count_calls is_env_step []) with 0%nat.
    repeat split; try lia; intros; discriminate.
  - rewrite !trace_bind, !result_bind, !count_calls_app.
    change (trace_of (invoke EnvReset (env_reset lib)) w1)
      with [Build_event (@EnvReset Obs Act Reward Batch Policy) w1
              (outcome (env_reset lib w1))].
    change (result_of (invoke EnvReset (env_reset lib)) w1)
      with (env_reset lib w1).
    change (count_calls is_reset [_]) with 1%nat.
    change (count_calls is_env_step [_]) with 0%nat.
    destruct (env_reset lib w1) as [e|[s w2]].
    + change (count_calls is_reset []) with 0%nat.
      change (count_calls is_env_step []) with 0%nat.
      repeat split; try lia; intros; discriminate.
    + destruct (steps_counts (Z.to_nat (num_steps lib)) s w2) as [-> H].
      repeat split; lia.
Qed.

(** X4. A run of [n] episodes calls [env.reset()] at most [n] times, and
    exactly [n] times when it runs to its end; it calls [env.step] at most
    [n] times [max_episode_steps], and never when [max_episode_steps] is
    zero or negative. *)
Theorem run_call_bounds (n : nat) (w : World) :
  (count_calls is_reset (trace_of (episodes lib n) w) <= n)%nat /\
  (forall r, result_of (episodes lib n) w = inr r ->
             count_calls is_reset (trace_of (episodes lib n) w) = n) /\
  (count_calls is_env_step (trace_of (episodes lib n) w)
   <= n * Z.to_nat (max_episode_steps lib))%nat /\
  (max_episode_steps lib <= 0 ->
   count_calls is_env_step (trace_of (episodes lib n) w) = 0%nat).
Proof.
  assert (H : (count_calls is_reset (trace_of (episodes lib n) w) <= n)%nat /\
              (forall r, result_of (episodes lib n) w = inr r ->
                 count_calls is_reset (trace_of (episodes lib n) w) = n) /\
              (count_calls is_env_step (trace_of (episodes lib n) w)
               <= n * Z.to_nat (max_episode_steps lib))%nat).
  { revert w. induction n as [|n IH]; intros w; cbn [episodes].
    - repeat split; apply Nat.le_refl.
    - rewrite trace_bind, result_bind, !count_calls_app.
      destruct (episode_counts w) as (H1 & H2 & H3).
      unfold num_steps in H3.
      destruct (result_of (episode lib) w) as [e|[u w']].
      + change (count_calls is_reset []) with 0%nat.
        change (count_calls is_env_step []) with 0%nat.
        repeat split; try lia; intros; discriminate.
      + destruct (IH w') as (I1 & I2 & I3). rewrite (H2 _ eq_refl).
        repeat split; try lia. intros r Hr. rewrite (I2 r Hr). reflexivity. }
  destruct H as (H1 & H2 & H3). repeat split; try assumption.
  intros Hneg. lia.
Qed.

(** *** The update statement and the GIF call, with the calls before them *)

Ltac split_trace Heq tr1 :=
  destruct tr1 as [|? [|? [|? [|? [|? tr1]]]]]; cbn in Heq;
  inversion Heq; subst; clear Heq;
  try match goal with
      | H : [] = ?l ++ _ :: _ |- _ => destruct l; discriminate H
      end.

Lemma learns_from_fresh_sample_extensible :
  extensible (learns_from_fresh_sample lib).
Proof.
  intros pre tr1 ev [H1 H2]. split.
  - intros Hc.
    destruct (H1 Hc) as (tr0 & eva & s & a & r & d & ep & -> & Hrest).
    exists (pre ++ tr0), eva, s, a, r, d, ep. rewrite app_assoc.
    split; [reflexivity|exact Hrest].
  - intros b Hc. destruct (H2 b Hc) as (tr0 & evs & -> & Hrest).
    exists (pre ++ tr0), evs. rewrite app_assoc.
    split; [reflexivity|exact Hrest].
Qed.

Lemma learns_from_fresh_sample_step (s : Obs) :
  local_events (learns_from_fresh_sample lib) (step_act_learn lib s).
Proof.
  intros w tr1 ev tr2.
  unfold step_act_learn, step_act, step_learn, eval_epsilon, trace_of, bind,
    read, write, invoke, ret, raise. cbn.
  destruct (epsilon (env_T lib w)) as [x|]; cbn;
    [|intros H; destruct tr1; discriminate].
  destruct (policy_call lib s (policy_assign_epsilon lib x w))
    as [e|[a w1]]; cbn;
    [|destruct (env_step lib a w1)
        as [e|[[[[s_next r] done] info] w2]]; cbn;
      [|destruct (buffer_add lib s a r done (env_ep lib w2) w2)
          as [e|[[] w3]] eqn:Ha; cbn;
        [|destruct (env_T lib w3 >? buffer_warmup_period) eqn:Hg; cbn;
          [destruct (buffer_sample lib w3) as [e|[b w4]] eqn:Hb; cbn;
           [|destruct (q_batch_update lib b w4) as [e|[[] w5]]; cbn]|]]]];
    intros Heq; split_trace Heq tr1;
    (split; [intros Hc|intros b0 Hc]); cbn in Hc; try discriminate;
    try (injection Hc as <-).
  all: try (eexists [_; _], _, s, a, r, done, (env_ep lib w2); cbn;
            repeat split; exact Ha).
  all: eexists [_; _; _], _; cbn; repeat split; cbn;
    [exact Hb|apply Z.gtb_lt in Hg; lia].
Qed.

(** X5. In a run of any number of episodes the update statement learns from a
    fresh sample: every [buffer.sample()] call comes right after the
    [buffer.add] call of its step, and every [q.batch_update(b)] call comes
    right after a [buffer.sample()] call that was made with [env.T] above
    50000 and returned the batch [b]. *)
Theorem update_learns_from_fresh_sample (n : nat) (w : World)
  (tr1 tr2 : list event) (ev : event) :
  trace_of (episodes lib n) w = tr1 ++ ev :: tr2 ->
  learns_from_fresh_sample lib tr1 ev.
Proof.
  revert w tr1 ev tr2.
  change (local_events (learns_from_fresh_sample lib) (episodes lib n)).
  pose proof learns_from_fresh_sample_extensible as Hext.
  apply (local_events_episodes _ Hext). unfold episode.
  locals_with Hext fail.
  apply (local_events_steps _ Hext). intros s. unfold train_step.
  locals_with Hext ltac:(apply learns_from_fresh_sample_step).
Qed.

Lemma plays_greedy_policy_extensible : extensible (plays_greedy_policy lib).
Proof.
  intros pre tr1 ev H p path size Hc.
  destruct (H p path size Hc) as (tr0 & evs & -> & Hrest).
  exists (pre ++ tr0), evs. rewrite app_assoc.
  split; [reflexivity|exact Hrest].
Qed.

Lemma plays_greedy_policy_make_gif :
  local_events (plays_greedy_policy lib) (make_gif lib).
Proof.
  intros w tr1 ev tr2.
  unfold make_gif, trace_of, bind, read, invoke, ret. cbn.
  destruct (env_ep lib w mod 10 =? 0); cbn;
    [|intros H; destruct tr1; discriminate].
  destruct (env_T lib w >? buffer_warmup_period); cbn;
    [|intros H; destruct tr1; discriminate].
  destruct (os_makedirs lib gif_dir true w) as [e|[u w1]]; cbn;
    [|destruct (policy_set_epsilon lib 0.01 w1) as [e|[p w2]] eqn:Hp; cbn;
      [|destruct (generate_gif lib p (gif_path (env_ep lib w2)) (320, 420) w2)
          as [e|[u' w3]]; cbn]];
    intros Heq; split_trace Heq tr1;
    intros p0 path size Hc; cbn in Hc; try discriminate;
    injection Hc as <- <- <-;
    (eexists [_], _; cbn; repeat split; exact Hp).
Qed.

(** X6. In a run of any number of episodes every [generate_gif] call plays the
    greedy policy: the call before it is [policy.set_epsilon(0.01)], and
    the [policy] argument is what that call returned. *)
Theorem gif_plays_greedy_policy (n : nat) (w : World)
  (tr1 tr2 : list event) (ev : event) :
  trace_of (episodes lib n) w = tr1 ++ ev :: tr2 ->
  plays_greedy_policy lib tr1 ev.
Proof.
  revert w tr1 ev tr2.
  change (local_events (plays_greedy_policy lib) (episodes lib n)).
  pose proof plays_greedy_policy_extensible as Hext.
  apply (local_events_episodes _ Hext). unfold episode.
  locals_with Hext ltac:(apply plays_greedy_policy_make_gif).
  apply (local_events_steps _ Hext). intros s.
  locals_with Hext fail.
Qed.

(** *** How an episode starts (lines 54-62) *)

Lemma make_gif_skipped (w : World) :
  env_ep lib w mod 10 <> 0 \/ env_T lib w <= buffer_warmup_period ->
  make_gif lib w = ([], inr (tt, w)).
Proof.
  intros Hno. unfold make_gif, bind, read. cbn.
  destruct (env_ep lib w mod 10 =? 0) eqn:E; [|reflexivity].
  apply Z.eqb_eq in E. cbn.
  destruct (env_T lib w >? buffer_warmup_period) eqn:E2; [|reflexivity].
  apply Z.gtb_lt in E2. lia.
Qed.

Lemma make_gif_due (w w1 w2 : World) (u : unit) (p : Policy) :
  env_ep lib w mod 10 = 0 ->
  env_T lib w > buffer_warmup_period ->
  os_makedirs lib gif_dir true w = inr (u, w1) ->
  policy_set_epsilon lib 0.01 w1 = inr (p, w2) ->
  trace_of (make_gif lib) w =
  [ Build_event (OsMakedirs gif_dir true) w None;
    Build_event (PolicySetEpsilon 0.01) w1 None;
    Build_event (GenerateGif p (gif_path (env_ep lib w2)) (320, 420)) w2
      (outcome (generate_gif lib p (gif_path (env_ep lib w2)) (320, 420) w2)) ].
Proof.
  intros Hep HT Hm Hp. unfold make_gif, trace_of, bind, read, invoke. cbn.
  rewrite (proj2 (Z.eqb_eq _ _) Hep). cbn.
  rewrite (proj2 (Z.gtb_lt _ _)) by lia. cbn.
  rewrite Hm. cbn. rewrite Hp. cbn.
  destruct (generate_gif lib p (gif_path (env_ep lib w2)) (320, 420) w2)
    as [e|[u' w3]]; reflexivity.
Qed.

(** X7. An episode that starts with [env.ep] divisible by 10 and [env.T] above
    50000 first calls [os.makedirs('./data/dqn/gifs/', exist_ok=True)],
    then [policy.set_epsilon(0.01)], then [generate_gif] with the returned
    policy and the path formatted from [env.ep], as long as the first two
    return; any other episode starts with [env.reset()]. *)
Theorem episode_start (w : World) :
  (env_ep lib w mod 10 = 0 ->
   env_T lib w > buffer_warmup_period ->
   forall u w1 p w2,
     os_makedirs lib gif_dir true w = inr (u, w1) ->
     policy_set_epsilon lib 0.01 w1 = inr (p, w2) ->
     exists rest,
       trace_of (episode lib) w =
       Build_event (OsMakedirs gif_dir true) w None
       :: Build_event (PolicySetEpsilon 0.01) w1 None
       :: Build_event (GenerateGif p (gif_path (env_ep lib w2)) (320, 420)) w2
            (outcome (generate_gif lib p (gif_path (env_ep lib w2))
                        (320, 420) w2))
       :: rest) /\
  (env_ep lib w mod 10 <> 0 \/ env_T lib w <= buffer_warmup_period ->
   exists rest,
     trace_of (episode lib) w =
     Build_event EnvReset w (outcome (env_reset lib w)) :: rest).
Proof.
  unfold episode. rewrite trace_bind. split.
  - intros Hep HT u w1 p w2 Hm Hp.
    rewrite (make_gif_due w w1 w2 u p Hep HT Hm Hp).
    eexists. reflexivity.
  - intros Hno. unfold trace_of at 1, result_of at 1.
    rewrite (make_gif_skipped w Hno). cbn [fst snd app].
    rewrite trace_bind. eexists. reflexivity.
Qed.

(** ** Learning and synchronisation in a run (lines 71-75) *)

(** *** Calls and the calls after them *)

Lemma future_events_silent {A : Type} (Q : event -> list event -> Prop)
  (p : prog A) :
  (forall w, trace_of p w = []) -> future_events Q p.
Proof.
  intros H w tr1 ev tr2 Htr. rewrite H in Htr. destruct tr1; discriminate.
Qed.

Lemma future_events_eval_epsilon (Q : event -> list event -> Prop) (T : Z) :
  future_events Q (eval_epsilon lib T).
Proof.
  apply future_events_silent. intros w. unfold eval_epsilon.
  destruct (epsilon T); reflexivity.
Qed.

Lemma future_events_invoke {A : Type} (Q : event -> list event -> Prop)
  (c : call) (f : World -> Exn + A * World) :
  (forall w, Q (Build_event c w (outcome (f w))) []) ->
  future_events Q (invoke c f).
Proof.
  intros H w [|x tr1] ev tr2 Htr; cbn in Htr.
  - injection Htr as <- <-. apply H.
  - injection Htr as _ Htr. destruct tr1; discriminate.
Qed.

Lemma future_events_bind {A B : Type} (Q : event -> list event -> Prop)
  (p : prog A) (k : A -> prog B) :
  right_extensible Q ->
  future_events Q p -> (forall a, future_events Q (k a)) ->
  future_events Q (bind p k).
Proof.
  intros Hext Hp Hk w tr1 ev tr2 Htr. rewrite trace_bind in Htr.
  apply app_eq_app in Htr as [l [[H1 H2]|[H1 H2]]].
  - destruct l as [|x l]; cbn in H2.
    + destruct (result_of p w) as [e|[a w']]; [discriminate|].
      apply (Hk a w' [] ev tr2). symmetry. exact H2.
    + injection H2 as <- ->. apply Hext. apply (Hp w tr1 ev l H1).
  - destruct (result_of p w) as [e|[a w']];
      [destruct l; discriminate|].
    apply (Hk a w' l ev tr2 H2).
Qed.

Ltac futures_with Hext leaf :=
  repeat first
    [ leaf
    | apply future_events_silent; intro; reflexivity
    | apply future_events_eval_epsilon
    | apply future_events_invoke; intro; cbn; try easy
    | apply (future_events_bind _ _ _ Hext); [|intro]
    | match goal with
      | |- future_events _ (if ?b then _ else _) => destruct b
      | |- future_events _ (let '(_, _) := ?x in _) => destruct x
      end ].

Lemma future_events_steps (Q : event -> list event -> Prop) :
  right_extensible Q ->
  (forall s, future_events Q (train_step lib s)) ->
  forall n s, future_events Q (steps lib n s).
Proof.
  intros Hext H n. induction n as [|n IH]; intros s; cbn [steps].
  - apply future_events_silent. reflexivity.
  - apply (future_events_bind _ _ _ Hext); [apply H|]. intros [[|] s_next];
      [apply future_events_silent; reflexivity|apply IH].
Qed.

Lemma future_events_episodes (Q : event -> list event -> Prop) :
  right_extensible Q ->
  future_events Q (episode lib) -> forall n, future_events Q (episodes lib n).
Proof.
  intros Hext H n. induction n as [|n IH]; cbn [episodes].
  - apply future_events_silent. reflexivity.
  - apply (future_events_bind _ _ _ Hext); [exact H|]. intros _. exact IH.
Qed.

(** *** One training step, call by call *)

(** Runs the next call of a step that the goal shows, both ways. *)
Ltac exec_call :=
  match goal with
  | |- context [epsilon (env_T lib ?w)] =>
      destruct (epsilon (env_T lib w)) as [?|] eqn:?
  | |- context [policy_call lib ?s ?w] =>
      destruct (policy_call lib s w) as [?|[? ?]] eqn:?
  | |- context [env_step lib ?a ?w] =>
      destruct (env_step lib a w) as [?|[[[[? ?] ?] ?] ?]] eqn:?
  | |- context [buffer_add lib ?s ?a ?r ?d ?ep ?w] =>
      destruct (buffer_add lib s a r d ep w) as [?|[[] ?]] eqn:?
  | |- context [buffer_sample lib ?w] =>
      destruct (buffer_sample lib w) as [?|[? ?]] eqn:?
  | |- context [q_batch_update lib ?b ?w] =>
      destruct (q_batch_update lib b w) as [?|[[] ?]] eqn:?
  | |- context [q_sync_target_model lib ?w] =>
      destruct (q_sync_target_model lib w) as [?|[[] ?]] eqn:?
  | |- context [?x >? buffer_warmup_period] =>
      destruct (x >? buffer_warmup_period) eqn:?
  | |- context [?x mod target_model_sync_period =? 0] =>
      destruct (x mod target_model_sync_period =? 0) eqn:?
  end; cbn.

Ltac exec_train_step :=
  unfold train_step, step_act_learn, step_act, step_learn, step_sync,
    eval_epsilon, trace_of, bind, read, write, invoke, ret, raise;
  cbn; repeat exec_call;
  repeat match goal with
  | H : (_ >? _) = true |- _ => apply Z.gtb_lt in H
  | H : (_ >? _) = false |- _ => rewrite Z.gtb_ltb in H; apply Z.ltb_ge in H
  | H : (_ =? _) = true |- _ => apply Z.eqb_eq in H
  | H : (_ =? _) = false |- _ => apply Z.eqb_neq in H
  end.

Ltac split_step Heq tr1 :=
  destruct tr1 as [|? [|? [|? [|? [|? [|? tr1]]]]]]; cbn in Heq;
  inversion Heq; subst; clear Heq;
  try match goal with
      | H : [] = ?l ++ _ :: _ |- _ => destruct l; discriminate H
      end.

(** Two answers of one call are the same answer. *)
Ltac same_answer :=
  repeat match goal with
  | H1 : ?t = _, H2 : ?t = _ |- _ =>
      rewrite H1 in H2; inversion H2; subst; clear H2
  end.

Ltac answered :=
  repeat match goal with
  | H : ?t = inl _ |- context [?t] => rewrite H
  | H : ?t = inr _ |- context [?t] => rewrite H
  end; cbn.

Ltac reached Hr :=
  destruct Hr as [(?s & ?a & ?r & ?d & ?ep & Hc & Hr & Hle)|(?b & Hc & Hr)];
  cbn in Hc, Hr; try discriminate Hc; inversion Hc; subst; clear Hc;
  same_answer.

Lemma syncs_when_due_extensible : right_extensible (syncs_when_due lib).
Proof.
  intros ev tr2 post H w2 Hr Hd. destruct (H w2 Hr Hd) as [rest ->].
  exists (rest ++ post). reflexivity.
Qed.

Lemma syncs_when_due_step (s : Obs) :
  future_events (syncs_when_due lib) (train_step lib s).
Proof.
  intros w tr1 ev tr2. exec_train_step;
    intros Heq wd Hr Hd; split_step Heq tr1; reached Hr;
    first [lia | congruence | answered; eexists; reflexivity].
Qed.

Lemma syncs_only_when_due_extensible : extensible (syncs_only_when_due lib).
Proof.
  intros pre tr1 ev H Hc. destruct (H Hc) as (tr0 & ev0 & -> & Hr & Hd).
  exists (pre ++ tr0), ev0. rewrite app_assoc. auto.
Qed.

Lemma syncs_only_when_due_step (s : Obs) :
  local_events (syncs_only_when_due lib) (train_step lib s).
Proof.
  intros w tr1 ev tr2. exec_train_step;
    intros Heq Hc; split_step Heq tr1; try discriminate Hc; cbn;
    first [ eexists [_; _], _; split; [reflexivity|]
          | eexists [_; _; _; _], _; split; [reflexivity|] ];
    (split; [|assumption]);
    first [ left; do 5 eexists; cbn; split; [reflexivity|]; split;
            [eassumption|assumption]
          | right; eexists; cbn; split; [reflexivity|eassumption] ].
Qed.

Lemma learns_when_warm_extensible : right_extensible (learns_when_warm lib).
Proof.
  intros ev tr2 post H s a r done ep w1 Hc Hr Hw.
  destruct (H s a r done ep w1 Hc Hr Hw) as (rest & -> & Hu).
  exists (rest ++ post). split; [reflexivity|]. intros b w' Hs.
  destruct (Hu b w' Hs) as [rest' ->]. exists (rest' ++ post). reflexivity.
Qed.

Lemma learns_when_warm_step (s : Obs) :
  future_events (learns_when_warm lib) (train_step lib s).
Proof.
  intros w tr1 ev tr2. exec_train_step;
    intros Heq s' a' r' d' ep' wd Hc Hr Hw; split_step Heq tr1;
    cbn in Hc, Hr; try discriminate Hc; inversion Hc; subst; clear Hc;
    same_answer; try lia;
    answered; (eexists; split; [reflexivity|]); intros bb ww Hs;
    try discriminate Hs; inversion Hs; subst; answered;
    eexists; reflexivity.
Qed.

Lemma samples_only_when_warm_extensible :
  extensible (samples_only_when_warm lib).
Proof.
  intros pre tr1 ev H Hc.
  destruct (H Hc) as (Hw & tr0 & eva & s & a & r & done & ep & -> & Ha & Hr).
  split; [exact Hw|].
  exists (pre ++ tr0), eva, s, a, r, done, ep. rewrite app_assoc. auto.
Qed.

Lemma samples_only_when_warm_step (s : Obs) :
  local_events (samples_only_when_warm lib) (train_step lib s).
Proof.
  intros w tr1 ev tr2. exec_train_step;
    intros Heq Hc; split_step Heq tr1; try discriminate Hc; cbn;
    (split; [lia|]); eexists [_; _], _; do 5 eexists;
    (split; [reflexivity|]); cbn; (split; [reflexivity|eassumption]).
Qed.

Lemma updates_only_when_warm_extensible :
  extensible (updates_only_when_warm lib).
Proof.
  intros pre tr1 ev H b Hc.
  destruct (H b Hc) as (tr0 & evs & -> & Hs & Hr & Hw).
  exists (pre ++ tr0), evs. rewrite app_assoc. auto.
Qed.

Lemma updates_only_when_warm_step (s : Obs) :
  local_events (updates_only_when_warm lib) (train_step lib s).
Proof.
  intros w tr1 ev tr2. exec_train_step;
    intros Heq bb Hc; split_step Heq tr1; try discriminate Hc;
    cbn in Hc; inversion Hc; subst; clear Hc;
    eexists [_; _; _], _; (split; [reflexivity|]); cbn;
    (split; [reflexivity|]); (split; [eassumption|lia]).
Qed.

(** The guards and the start of an episode make none of these calls. *)
Lemma future_events_episode (Q : event -> list event -> Prop) :
  right_extensible Q ->
  (forall c w o, is_env_step c = false -> is_policy_call c = false ->
     (forall s a r done ep, c <> BufferAdd s a r done ep) ->
     (forall b, c <> QBatchUpdate b) -> c <> BufferSample ->
     c <> QSyncTargetModel ->
     Q (Build_event c w o) []) ->
  (forall s, future_events Q (train_step lib s)) ->
  future_events Q (episode lib).
Proof.
  intros Hext Hq Hs. unfold episode, make_gif.
  futures_with Hext ltac:(apply future_events_steps; [exact Hext|exact Hs]);
    apply Hq; try reflexivity; intros; discriminate.
Qed.

Lemma reaches_sync_check_once (ev : event) (w2 w2' : World) :
  reaches_sync_check lib ev w2 -> reaches_sync_check lib ev w2' -> w2 = w2'.
Proof.
  intros [(s & a & r & d & ep & Hc & Hr & _)|(b & Hc & Hr)]
         [(s' & a' & r' & d' & ep' & Hc' & Hr' & _)|(b' & Hc' & Hr')];
    rewrite Hc in Hc'; try discriminate Hc'; inversion Hc'; subst;
    rewrite Hr in Hr'; inversion Hr'; reflexivity.
Qed.

Lemma syncs_when_due_run (n : nat) :
  future_events (syncs_when_due lib) (episodes lib n).
Proof.
  pose proof syncs_when_due_extensible as Hext.
  apply (future_events_episodes _ Hext).
  apply (future_events_episode _ Hext); [|apply syncs_when_due_step].
  intros c w o _ _ Ha Hu _ _ w2 [(s & a & r & d & ep & Hc & _)|(b & Hc & _)] _;
    cbn in Hc; [destruct (Ha _ _ _ _ _ Hc)|destruct (Hu _ Hc)].
Qed.

Lemma local_events_episode (Q : list event -> event -> Prop) :
  extensible Q ->
  (forall c w o, is_env_step c = false -> is_policy_call c = false ->
     (forall s a r done ep, c <> BufferAdd s a r done ep) ->
     (forall b, c <> QBatchUpdate b) -> c <> BufferSample ->
     c <> QSyncTargetModel ->
     Q [] (Build_event c w o)) ->
  (forall s, local_events Q (train_step lib s)) ->
  local_events Q (episode lib).
Proof.
  intros Hext Hq Hs. unfold episode, make_gif.
  locals_with Hext ltac:(apply local_events_steps; [exact Hext|exact Hs]);
    apply Hq; try reflexivity; intros; discriminate.
Qed.

Lemma syncs_only_when_due_run (n : nat) :
  local_events (syncs_only_when_due lib) (episodes lib n).
Proof.
  pose proof syncs_only_when_due_extensible as Hext.
  apply local_events_episodes; [exact Hext|].
  apply (local_events_episode _ Hext); [|apply syncs_only_when_due_step].
  intros c w o _ _ _ _ _ Hn Hc. destruct (Hn Hc).
Qed.

(** C7. In a run of any number of episodes: whenever a training step
    reaches line 74 (its [buffer.add] returned with [env.T] within the
    warm-up period, or its [q.batch_update] returned), leaving the world
    [w2], the very next call of the run is [q.sync_target_model()], made in
    [w2], when [env.T] is divisible by the sync period there, and the next
    call, if there is one, is not [q.sync_target_model()] otherwise.  And
    every [q.sync_target_model()] call of the run comes straight after such
    a call, in the world that call left, with [env.T] divisible by the
    period. *)
Theorem sync_iff_period (n : nat) (w : World) (tr1 tr2 : list event)
  (ev : event) :
  trace_of (episodes lib n) w = tr1 ++ ev :: tr2 ->
  (forall w2,
      reaches_sync_check lib ev w2 ->
      (env_T lib w2 mod target_model_sync_period = 0 ->
       exists rest,
         tr2 = Build_event QSyncTargetModel w2
                 (outcome (q_sync_target_model lib w2)) :: rest) /\
      (env_T lib w2 mod target_model_sync_period <> 0 ->
       forall ev' rest, tr2 = ev' :: rest -> is_sync (ev_call ev') = false)) /\
  (is_sync (ev_call ev) = true ->
   exists tr0 ev0,
     tr1 = tr0 ++ [ev0] /\
     reaches_sync_check lib ev0 (ev_world ev) /\
     env_T lib (ev_world ev) mod target_model_sync_period = 0).
Proof.
  intros Htr. split.
  - intros w2 Hr. split.
    + intros Hd. exact (syncs_when_due_run n w tr1 ev tr2 Htr w2 Hr Hd).
    + intros Hd ev' rest ->.
      destruct (is_sync (ev_call ev')) eqn:Hs; [exfalso|reflexivity].
      assert (Htr' : trace_of (episodes lib n) w = (tr1 ++ [ev]) ++ ev' :: rest)
        by (rewrite <- app_assoc; exact Htr).
      destruct (syncs_only_when_due_run n w _ ev' rest Htr')
        as (tr0 & ev0 & Heq & Hr' & Hd').
      { destruct (ev_call ev'); try discriminate Hs. reflexivity. }
      apply app_inj_tail in Heq as [_ <-].
      rewrite (reaches_sync_check_once _ _ _ Hr Hr') in Hd. exact (Hd Hd').
  - intros Hs. apply (syncs_only_when_due_run n w tr1 ev tr2 Htr).
    destruct (ev_call ev); try discriminate Hs. reflexivity.
Qed.

Lemma learns_when_warm_run (n : nat) :
  future_events (learns_when_warm lib) (episodes lib n).
Proof.
  pose proof learns_when_warm_extensible as Hext.
  apply (future_events_episodes _ Hext).
  apply (future_events_episode _ Hext); [|apply learns_when_warm_step].
  intros c w o _ _ Ha _ _ _ s a r d ep w1 Hc. destruct (Ha _ _ _ _ _ Hc).
Qed.

Lemma samples_only_when_warm_run (n : nat) :
  local_events (samples_only_when_warm lib) (episodes lib n).
Proof.
  pose proof samples_only_when_warm_extensible as Hext.
  apply local_events_episodes; [exact Hext|].
  apply (local_events_episode _ Hext); [|apply samples_only_when_warm_step].
  intros c w o _ _ _ _ Hn _ Hc. destruct (Hn Hc).
Qed.

Lemma updates_only_when_warm_run (n : nat) :
  local_events (updates_only_when_warm lib) (episodes lib n).
Proof.
  pose proof updates_only_when_warm_extensible as Hext.
  apply local_events_episodes; [exact Hext|].
  apply (local_events_episode _ Hext); [|apply updates_only_when_warm_step].
  intros c w o _ _ _ Hn _ _ b Hc. destruct (Hn _ Hc).
Qed.

(** C10. In a run of any number of episodes: whenever [buffer.add] of a
    training step returns, leaving the world [w1] (the step reaches
    line 71), then with [env.T > 50000] in [w1] the very next call of the
    run is [buffer.sample()], made in [w1], and when that returns a batch
    the call after it is [q.batch_update] on that batch; with
    [env.T <= 50000] the next call, if there is one, is neither.  And every
    [buffer.sample()] call of the run comes straight after a [buffer.add]
    that left [env.T > 50000], and every [q.batch_update] call straight
    after the [buffer.sample()] call that returned its batch, itself made
    with [env.T > 50000]. *)
Theorem update_iff_warm (n : nat) (w : World) (tr1 tr2 : list event)
  (ev : event) :
  trace_of (episodes lib n) w = tr1 ++ ev :: tr2 ->
  (forall s a r done ep w1,
      ev_call ev = BufferAdd s a r done ep ->
      buffer_add lib s a r done ep (ev_world ev) = inr (tt, w1) ->
      (env_T lib w1 > buffer_warmup_period ->
       exists rest,
         tr2 = Build_event BufferSample w1 (outcome (buffer_sample lib w1))
               :: rest /\
         forall b w',
           buffer_sample lib w1 = inr (b, w') ->
           exists rest',
             rest = Build_event (QBatchUpdate b) w'
                      (outcome (q_batch_update lib b w')) :: rest') /\
      (env_T lib w1 <= buffer_warmup_period ->
       forall ev' rest,
         tr2 = ev' :: rest ->
         is_sample (ev_call ev') = false /\
         is_batch_update (ev_call ev') = false)) /\
  (is_sample (ev_call ev) = true ->
   env_T lib (ev_world ev) > buffer_warmup_period /\
   exists tr0 eva s a r done ep,
     tr1 = tr0 ++ [eva] /\
     ev_call eva = BufferAdd s a r done ep /\
     buffer_add lib s a r done ep (ev_world eva) = inr (tt, ev_world ev)) /\
  (forall b,
      ev_call ev = QBatchUpdate b ->
      exists tr0 evs,
        tr1 = tr0 ++ [evs] /\
        ev_call evs = BufferSample /\
        buffer_sample lib (ev_world evs) = inr (b, ev_world ev) /\
        env_T lib (ev_world evs) > buffer_warmup_period).
Proof.
  intros Htr. split; [|split].
  - intros s a r done ep w1 Hc Hr. split.
    + intros Hw.
      exact (learns_when_warm_run n w tr1 ev tr2 Htr s a r done ep w1 Hc Hr Hw).
    + intros Hw ev' rest ->.
      assert (Htr' : trace_of (episodes lib n) w = (tr1 ++ [ev]) ++ ev' :: rest)
        by (rewrite <- app_assoc; exact Htr).
      split.
      * destruct (is_sample (ev_call ev')) eqn:Hs; [exfalso|reflexivity].
        destruct (samples_only_when_warm_run n w _ ev' rest Htr')
          as (Hw' & tr0 & eva & s' & a' & r' & d' & ep' & Heq & Hc' & Hr').
        { destruct (ev_call ev'); try discriminate Hs. reflexivity. }
        apply app_inj_tail in Heq as [_ <-].
        rewrite Hc in Hc'. inversion Hc'; subst.
        rewrite Hr in Hr'. inversion Hr'; subst. lia.
      * destruct (is_batch_update (ev_call ev')) eqn:Hu; [exfalso|reflexivity].
        destruct (ev_call ev') as [| | | | | |b| | |] eqn:Hc';
          try discriminate Hu.
        destruct (updates_only_when_warm_run n w _ ev' rest Htr' b Hc')
          as (tr0 & evs & Heq & Hs & _).
        apply app_inj_tail in Heq as [_ <-].
        rewrite Hc in Hs. discriminate Hs.
  - intros Hs. apply (samples_only_when_warm_run n w tr1 ev tr2 Htr).
    destruct (ev_call ev); try discriminate Hs. reflexivity.
  - intros b Hc. exact (updates_only_when_warm_run n w tr1 ev tr2 Htr b Hc).
Qed.

End LoopFacts.

(** *** The facts above on a run of the [toy] library *)

Lemma epsilon_pure_witness :
  exists x,
    epsilon 1500000 = Some x /\
    (forall g, call_function epsilon_def [VInt 1500000] g =
               (Returned (Some (VFloat x)), g)) /\
    (forall g1 g2, fst (call_function epsilon_def [VInt 1500000] g1) =
                   fst (call_function epsilon_def [VInt 1500000] g2)) /\
    (forall w, eval_epsilon (toy (-1)) 1500000 w = ([], inr (x, w))).
Proof.
  apply (epsilon_pure (toy (-1)) 1500000). lia.
Defined.


Lemma sync_iff_period_witness :
  exists rest,
    skipn 6 (trace_of (episodes (toy (-1)) 1) (59999, 1)) =
    {| ev_call := QSyncTargetModel; ev_world := (60000, 2);
       ev_raised := None |} :: rest.
Proof.
  apply (proj1 (sync_iff_period (toy (-1)) 1 (59999, 1)
                  (firstn 5 (trace_of (episodes (toy (-1)) 1) (59999, 1)))
                  (skipn 6 (trace_of (episodes (toy (-1)) 1) (59999, 1)))
                  {| ev_call := QBatchUpdate 32%nat; ev_world := (60000, 2);
                     ev_raised := None |}
                  ltac:(vm_compute; reflexivity))
           (60000, 2)).
  - right. exists 32%nat. split; reflexivity.
  - reflexivity.
Defined.

Lemma update_iff_warm_witness :
  exists rest,
    skipn 4 (trace_of (episodes (toy (-1)) 1) (50000, 1)) =
    {| ev_call := BufferSample; ev_world := (50001, 2); ev_raised := None |}
    :: rest /\
    forall b w',
      buffer_sample (toy (-1)) (50001, 2) = inr (b, w') ->
      exists rest',
        rest = {| ev_call := QBatchUpdate b; ev_world := w';
                  ev_raised := None |} :: rest'.
Proof.
  apply (proj1 (update_iff_warm (toy (-1)) 1 (50000, 1)
                  (firstn 3 (trace_of (episodes (toy (-1)) 1) (50000, 1)))
                  (skipn 4 (trace_of (episodes (toy (-1)) 1) (50000, 1)))
                  {| ev_call := BufferAdd 0 0 1 false 2; ev_world := (50001, 2);
                     ev_raised := None |}
                  ltac:(vm_compute; reflexivity))
           0 0 1 false 2 (50001, 2)).
  - reflexivity.
  - reflexivity.
  - reflexivity.
Defined.

Lemma errors_propagate_witness :
  result_of (episodes (toy 2) 2) (0, 0) = inl "env.step failed"%string.
Proof.
  apply (proj1 (errors_propagate (toy 2) 2 (0, 0))
           (removelast (trace_of (episodes (toy 2) 2) (0, 0)))
           {| ev_call := EnvStep 0; ev_world := (2, 2); ev_raised := Some "env.step failed"%string |}
           []).
  - vm_compute. reflexivity.
  - reflexivity.
Defined.

(** *** More facts on runs of the [toy] library *)

Lemma policy_acts_on_schedule_witness :
  Forall (on_schedule (toy (-1)))
         (trace_of (episodes (toy (-1)) 1) (0, 0)).
Proof.
  apply (policy_acts_on_schedule (toy (-1)) 1).
Defined.

Lemma buffer_stores_what_happened_witness :
  stores_what_happened (toy (-1))
    [ {| ev_call := EnvReset; ev_world := (0, 0); ev_raised := None |};
      {| ev_call := PolicyCall 0; ev_world := (0, 1); ev_raised := None |};
      {| ev_call := EnvStep 0; ev_world := (0, 1); ev_raised := None |} ]
    {| ev_call := BufferAdd 0 0 1 false 1; ev_world := (1, 1);
       ev_raised := None |}.
Proof.
  eapply (buffer_stores_what_happened (toy (-1)) 1 (0, 0)).
  reflexivity.
Defined.

Lemma policy_acts_on_last_obs_witness :
  last_obs (toy (-1)) None
    [ {| ev_call := EnvReset; ev_world := (0, 0); ev_raised := None |};
      {| ev_call := PolicyCall 0; ev_world := (0, 1); ev_raised := None |};
      {| ev_call := EnvStep 0; ev_world := (0, 1); ev_raised := None |};
      {| ev_call := BufferAdd 0 0 1 false 1; ev_world := (1, 1);
         ev_raised := None |} ]
  = Some 1 /\
  (steps_since_reset (Batch:=nat) (Policy:=unit) (Exn:=string) 0
     [ {| ev_call := EnvReset; ev_world := (0, 0); ev_raised := None |};
       {| ev_call := PolicyCall 0; ev_world := (0, 1); ev_raised := None |};
       {| ev_call := EnvStep 0; ev_world := (0, 1); ev_raised := None |};
       {| ev_call := BufferAdd 0 0 1 false 1; ev_world := (1, 1);
          ev_raised := None |} ]
   < Z.to_nat (num_steps (toy (-1))))%nat.
Proof.
  eapply (policy_acts_on_last_obs (toy (-1)) 1 (0, 0)).
  - reflexivity.
  - reflexivity.
Defined.

Lemma run_call_bounds_witness :
  count_calls is_reset (trace_of (episodes (toy (-1)) 2) (0, 0)) = 2%nat.
Proof.
  apply (proj1 (proj2 (run_call_bounds (toy (-1)) 2 (0, 0))) (tt, (4, 2))).
  reflexivity.
Defined.

Lemma update_learns_from_fresh_sample_witness :
  learns_from_fresh_sample (toy (-1))
    (firstn 8 (trace_of (episodes (toy (-1)) 1) (50001, 10)))
    {| ev_call := QBatchUpdate 32%nat; ev_world := (50102, 11);
       ev_raised := None |}.
Proof.
  apply (update_learns_from_fresh_sample (toy (-1)) 1 (50001, 10) _ []).
  reflexivity.
Defined.

Lemma gif_plays_greedy_policy_witness :
  plays_greedy_policy (toy (-1))
    [ {| ev_call := OsMakedirs gif_dir true; ev_world := (50001, 10);
         ev_raised := None |};
      {| ev_call := PolicySetEpsilon 0.01; ev_world := (50001, 10);
         ev_raised := None |} ]
    {| ev_call := GenerateGif tt (gif_path 10) (320, 420);
       ev_world := (50001, 10); ev_raised := None |}.
Proof.
  eapply (gif_plays_greedy_policy (toy (-1)) 1 (50001, 10)).
  reflexivity.
Defined.

Lemma episode_start_witness :
  exists rest,
    trace_of (episode (toy (-1))) (50001, 10) =
    {| ev_call := OsMakedirs gif_dir true; ev_world := (50001, 10);
       ev_raised := None |}
    :: {| ev_call := PolicySetEpsilon 0.01; ev_world := (50001, 10);
          ev_raised := None |}
    :: {| ev_call := GenerateGif tt (gif_path 10) (320, 420);
          ev_world := (50001, 10); ev_raised := None |}
    :: rest.
Proof.
  apply (proj1 (episode_start (toy (-1)) (50001, 10)) eq_refl eq_refl
           tt (50001, 10) tt (50001, 10) eq_refl eq_refl).
Defined.
